(** * RevPy: protection levels for nested fare classes

    A shallow embedding of [pyrm/optimizers.py] (the functions [EMSRb] and
    [EMSRb_MR]) and the properties its specification states about them.

    Arrays are one-dimensional [float64] numpy arrays, embedded as lists of
    Rocq's primitive binary64 floats, so that the arithmetic of the source
    ([+], [*], [/], [sqrt], comparisons, NaN) is the arithmetic of the model.
    Python exceptions are values of an error monad.

    What the optimizers call and the repository does not define stays
    open: [scipy.stats.norm.ppf] and [fare_transformation] are parameters,
    and [fill_nan] follows the words of the specification.

    The file has four parts: the definitions (the optimizers on values,
    the formulas of the specification, the optimizers on a store of
    buffers), the lemmas, the claims of the specification in their order,
    and further properties of the code. *)

From Stdlib Require Import ZArith Lia Floats.
From Stdlib Require Uint63.
From stdpp Require Import base tactics option list gmap.
From Equations Require Import Equations.

Local Open Scope Z_scope.

(** ** Python: exceptions as an error monad *)

Module Py.

Inductive exn : Type :=
| ValueError
| IndexError.

Inductive result (A : Type) : Type :=
| Ok (a : A)
| Raise (e : exn).
Arguments Ok {A} a.
Arguments Raise {A} e.

Definition bind {A B : Type} (m : result A) (k : A -> result B) : result B :=
  match m with
  | Ok a => k a
  | Raise e => Raise e
  end.

Definition raises {A : Type} (m : result A) : Prop :=
  match m with
  | Ok _ => False
  | Raise _ => True
  end.

(** [for j in js: s = body j s], stopping at the first exception. *)
Fixpoint for_each {S : Type} (js : list nat) (body : nat -> S -> result S)
    (s : S) : result S :=
  match js with
  | [] => Ok s
  | j :: js' => bind (body j s) (for_each js' body)
  end.

(** [range(lo, hi)] *)
Definition range (lo hi : nat) : list nat := seq lo (hi - lo).

End Py.

Export Py (result, Ok, Raise, ValueError, IndexError).

#[global] Instance result_bind : MBind result :=
  fun A B k m => Py.bind m k.
#[global] Instance result_ret : MRet result := @Ok.

(** Run the monad one step further. *)
Ltac py_step := cbn [mbind result_bind Py.bind].

(** ** numpy: the array operations the optimizers call *)

Module Np.

(** A one-dimensional [float64] array. *)
Abbreviation ndarray := (list float) (only parsing).

(** [np.zeros(n)]: numpy refuses a negative dimension. *)
Definition zeros (n : Z) : result ndarray :=
  if n <? 0 then Raise ValueError
  else Ok (replicate (Z.to_nat n) 0%float).

(** [np.zeros(a.shape)] for a one-dimensional [a]. *)
Definition zeros_like (a : ndarray) : ndarray :=
  replicate (length a) 0%float.

(** [a.cumsum()]: [out[0] = a[0]], [out[i] = out[i-1] + a[i]]. *)
Fixpoint cumsum_from (acc : float) (a : ndarray) : ndarray :=
  match a with
  | [] => []
  | x :: a' => let acc' := (acc + x)%float in acc' :: cumsum_from acc' a'
  end.

Definition cumsum (a : ndarray) : ndarray :=
  match a with
  | [] => []
  | x :: a' => x :: cumsum_from x a'
  end.

(** [a.sum()] and [np.sum(a)] on a [float64] array are [np.add.reduce]:
    the result starts as the identity 0, and numpy adds to it the pairwise
    sum of the elements (its [DOUBLE_pairwise_sum]), which fixes the order
    of the additions:
    - fewer than 8 elements are added one after the other;
    - up to 128 elements go to eight accumulators [r[0..7]], element
      [8 i + k] to [r[k]]; the accumulators are added as
      [((r0 + r1) + (r2 + r3)) + ((r4 + r5) + (r6 + r7))], and what is left
      after the last full group of eight is added one after the other;
    - more than 128 elements are split in two, the first part of
      [n / 2] elements brought down to a multiple of 8, and the sums of
      the two parts are added. *)
Fixpoint block_loop (r0 r1 r2 r3 r4 r5 r6 r7 : float) (a : ndarray)
    : float :=
  match a with
  | a0 :: a1 :: a2 :: a3 :: a4 :: a5 :: a6 :: a7 :: a' =>
      block_loop (r0 + a0) (r1 + a1) (r2 + a2) (r3 + a3)
                 (r4 + a4) (r5 + a5) (r6 + a6) (r7 + a7) a'
  | _ =>
      foldl PrimFloat.add
        (((r0 + r1) + (r2 + r3)) + ((r4 + r5) + (r6 + r7)))%float a
  end.

Definition block_sum (a : ndarray) : float :=
  match a with
  | a0 :: a1 :: a2 :: a3 :: a4 :: a5 :: a6 :: a7 :: a' =>
      block_loop a0 a1 a2 a3 a4 a5 a6 a7 a'
  | _ => foldl PrimFloat.add 0%float a
  end.

(** [n2 = n / 2; n2 -= n2 % 8] *)
Definition split_at (n : nat) : nat := (n / 2 - (n / 2) mod 8)%nat.

Equations pairwise_sum (a : ndarray) : float by wf (length a) lt :=
  pairwise_sum a with le_lt_dec (length a) 128 := {
    | left _ => block_sum a
    | right _ =>
        (pairwise_sum (take (split_at (length a)) a)
         + pairwise_sum (drop (split_at (length a)) a))%float }.
Next Obligation.
  rewrite length_take. unfold split_at.
  pose proof (Nat.div_lt (length a) 2 ltac:(lia) ltac:(lia)). lia.
Qed.
Next Obligation.
  rewrite length_drop. unfold split_at.
  pose proof (Nat.mod_upper_bound (length a / 2) 8 ltac:(lia)).
  assert (64 <= length a / 2)%nat.
  { change 64%nat with (128 / 2)%nat. apply Nat.Div0.div_le_mono. lia. }
  lia.
Qed.

Definition sum (a : ndarray) : float := (0 + pairwise_sum a)%float.

(** [a[:k]] and [a[:-1]]: slices never raise. *)
Definition upto (k : nat) (a : ndarray) : ndarray := take k a.
Definition but_last (a : ndarray) : ndarray := take (length a - 1) a.

(** [a[j]] for [0 <= j]. *)
Definition getitem (a : ndarray) (j : nat) : result float :=
  match a !! j with
  | Some x => Ok x
  | None => Raise IndexError
  end.

(** [a[j] = v] for [0 <= j]. *)
Definition setitem (a : ndarray) (j : nat) (v : float) : result ndarray :=
  if decide (j < length a)%nat then Ok (<[j := v]> a) else Raise IndexError.

(** [a * b], elementwise, with numpy's broadcasting of one-dimensional
    arrays: equal lengths, or one operand of length one; anything else is
    a [ValueError]. *)
Definition mul (a b : ndarray) : result ndarray :=
  if decide (length a = length b) then Ok (zip_with PrimFloat.mul a b)
  else match a, b with
       | [x], _ => Ok (map (PrimFloat.mul x) b)
       | _, [y] => Ok (map (fun x => x * y)%float a)
       | _, _ => Raise ValueError
       end.

(** [a ** 2]: numpy squares by multiplying. *)
Definition square (a : ndarray) : ndarray :=
  map (fun x => x * x)%float a.

(** [np.all(a == 0)] *)
Definition all_eq_zero (a : ndarray) : bool :=
  forallb (fun x => x =? 0)%float a.

(** [a[a < 0] = 0] and [a[np.isnan(a)] = 0]: masked assignment. *)
Definition zero_where (mask : float -> bool) (a : ndarray) : ndarray :=
  map (fun x => if mask x then 0%float else x) a.

Definition negative (x : float) : bool := (x <? 0)%float.

(** [np.where(mask)[0]]: the positions at which the mask holds, ascending. *)
Fixpoint where_from (i : nat) (mask : list bool) : list nat :=
  match mask with
  | [] => []
  | b :: mask' =>
      if b then i :: where_from (S i) mask' else where_from (S i) mask'
  end.

Definition where_ (mask : list bool) : list nat := where_from 0 mask.

(** [~np.isnan(a)] *)
Definition not_nan (a : ndarray) : list bool :=
  map (fun x => negb (is_nan x)) a.

(** [a[idx]] for an index array [idx]: a copy of the selected elements;
    an index past the end is an [IndexError]. *)
Fixpoint gather (a : ndarray) (idx : list nat) : result ndarray :=
  match idx with
  | [] => Ok []
  | i :: idx' =>
      x ← getitem a i;
      xs ← gather a idx';
      Ok (x :: xs)
  end.

(** [np.round(a)] with no decimals is C's [rint] on every element: the
    nearest integer, ties to the even one, the sign kept, and NaN and the
    infinities unchanged.  [SFrint] computes it on the decoded float. *)
Definition round_half_even (m : Z) (k : Z) : Z :=
  let q := Z.shiftr m k in
  let r := Z.land m (Z.ones k) in
  let half := Z.shiftl 1 (k - 1) in
  match r ?= half with
  | Lt => q
  | Gt => q + 1
  | Eq => if Z.even q then q else q + 1
  end.

Definition SFrint (x : spec_float) : spec_float :=
  match x with
  | S754_finite s m e =>
      if 0 <=? e then x
      else match round_half_even (Zpos m) (- e) with
           | Zpos n => S754_finite s n 0
           | _ => S754_zero s
           end
  | _ => x
  end.

Definition rint (x : float) : float := SF2Prim (SFrint (Prim2SF x)).

Definition round (a : ndarray) : ndarray := map rint a.

(** [out[indices] = values]: the pairs written one after the other; an
    index past the end is left out. *)
Definition scatter (out : ndarray) (ivs : list (nat * float)) : ndarray :=
  foldl (fun out iv => <[iv.1 := iv.2]> out) out ivs.

(** [np.hstack((0, a))] *)
Definition hstack0 (a : ndarray) : ndarray := 0%float :: a.

End Np.

(** ** pyrm.optimizers *)

Section Optimizers.

(** [scipy.stats.norm.ppf], the inverse of the standard normal
    distribution function. *)
Variable ppf : float -> float.

(** [pyrm.faretransformation.fare_transformation]: adjusted fares and
    adjusted demands, with NaN as adjusted fare of an inefficient class. *)
Variable fare_transformation :
  Np.ndarray -> Np.ndarray -> option float -> result (Np.ndarray * Np.ndarray).

(** One turn of the loop of [EMSRb], lines 37 to 46. *)
Definition EMSRb_body (fares demands sigmas : Np.ndarray)
    (j : nat) (y : Np.ndarray) : result Np.ndarray :=
  let S_j := Np.sum (Np.upto j demands) in
  weighted ← Np.mul (Np.upto j demands) (Np.upto j fares);
  let p_j_bar := (Np.sum weighted / Np.sum (Np.upto j demands))%float in
  p_j_plus_1 ← Np.getitem fares j;
  let z_alpha := ppf (1 - p_j_plus_1 / p_j_bar)%float in
  let sigma := sqrt (Np.sum (Np.square (Np.upto j sigmas))) in
  let mu := S_j in
  Np.setitem y (j - 1) (mu + z_alpha * sigma)%float.

(** The loop of lines 36 to 46: the levels before they are clamped. *)
Definition EMSRb_loop (fares demands sigmas y : Np.ndarray)
    : result Np.ndarray :=
  Py.for_each (Py.range 1 (length fares))
    (EMSRb_body fares demands sigmas) y.

(** Lines 50 and 51. *)
Definition EMSRb_clamp (y : Np.ndarray) : Np.ndarray :=
  Np.zero_where is_nan (Np.zero_where Np.negative y).

(** Line 30, [sigmas is None or np.all(sigmas == 0)]. *)
Definition deterministic (sigmas : option Np.ndarray) : bool :=
  match sigmas with
  | None => true
  | Some s => Np.all_eq_zero s
  end.

(** The two branches of line 30 are the cases [None] and [Some] with all
    entries zero; the loop needs the sigmas it is given. *)
Definition EMSRb (fares demands : Np.ndarray) (sigmas : option Np.ndarray)
    : result Np.ndarray :=
  y ← Np.zeros (Z.of_nat (length fares) - 1);
  y ← match sigmas with
      | Some s =>
          if Np.all_eq_zero s then Ok (Np.but_last (Np.cumsum demands))
          else
            y ← EMSRb_loop fares demands s y;
            Ok (EMSRb_clamp y)
      | None => Ok (Np.but_last (Np.cumsum demands))
      end;
  Ok (Np.hstack0 (Np.round y)).

(** Modelled from the spec: [pyrm.helpers.fill_nan] is not among the
    sources.  The specification describes it as the helper that "takes a
    target shape, a set of indices that were computed on, and the computed
    values, and produces a full-length vector with values placed at those
    indices and a fill value (zero) elsewhere". *)
Definition fill_nan (shape : nat) (indices : list nat) (values : Np.ndarray)
    : Np.ndarray :=
  Np.scatter (replicate shape 0%float) (zip indices values).

Definition EMSRb_MR (fares demands : Np.ndarray) (sigmas : option Np.ndarray)
    (cap : option float) : result Np.ndarray :=
  let sigmas := match sigmas with
                | None => Np.zeros_like fares
                | Some s => s
                end in
  '(adjusted_fares, adjusted_demand) ← fare_transformation fares demands cap;
  let efficient_indices := Np.where_ (Np.not_nan adjusted_fares) in
  selected ← Np.gather adjusted_fares efficient_indices;
  if negb (Nat.eqb (length selected) 0) then
    fares_ ← Np.gather adjusted_fares efficient_indices;
    demands_ ← Np.gather adjusted_demand efficient_indices;
    sigmas_ ← Np.gather sigmas efficient_indices;
    protection_levels_ ← EMSRb fares_ demands_ (Some sigmas_);
    Ok (fill_nan (length fares) efficient_indices protection_levels_)
  else
    Ok (Np.zeros_like fares).

End Optimizers.

(** ** The specification's formulas *)

Section Formulas.

Variable ppf : float -> float.

(** The demand of the classes above boundary [j], as a running total:
    the cumulative sum that leaves out class [j] itself. *)
Definition cumulative_demand (demands : Np.ndarray) (j : nat) : float :=
  match take j demands with
  | [] => 0%float
  | d :: ds => foldl PrimFloat.add d ds
  end.

(** [S_j], the sum of [demands[0:j]]. *)
Definition S_ (demands : Np.ndarray) (j : nat) : float :=
  Np.sum (take j demands).

(** [p_bar_j = sum(demands[0:j] * fares[0:j]) / sum(demands[0:j])] *)
Definition p_bar (fares demands : Np.ndarray) (j : nat) : float :=
  (Np.sum (zip_with PrimFloat.mul (take j demands) (take j fares))
   / Np.sum (take j demands))%float.

(** [sigma_j], the square root of the sum of the squares of [sigmas[0:j]]. *)
Definition sigma_ (sigmas : Np.ndarray) (j : nat) : float :=
  sqrt (Np.sum (map (fun s => s * s)%float (take j sigmas))).

(** [z], the inverse normal distribution function at [1 - fares[j] / p_bar_j]. *)
Definition z_ (fares demands : Np.ndarray) (j : nat) : float :=
  ppf (1 - nth j fares 0 / p_bar fares demands j)%float.

(** [S_j + z * sigma_j] *)
Definition gaussian_level (fares demands sigmas : Np.ndarray) (j : nat)
    : float :=
  (S_ demands j + z_ fares demands j * sigma_ sigmas j)%float.

End Formulas.

(** ** The optimizers on a store of array buffers

    Python passes arrays by reference.  To say what a call leaves
    untouched, the optimizers are written once more over a store: an array
    is a window onto a buffer, a slice is a window onto the same buffer, and
    every numpy operation that computes puts its result in a buffer of its
    own.  Masks and index arrays ([sigmas == 0], [np.isnan], [np.where])
    are kept as values: nothing writes into them. *)

Module Mem.

Abbreviation store := (gmap nat (list float)) (only parsing).

Record array : Type := Array { buf : nat; off : nat; len : nat }.

(** A computation reads and writes the store, and returns or raises. *)
Definition M (A : Type) : Type := store -> result A * store.

Definition ret {A : Type} (a : A) : M A := fun h => (Ok a, h).

Definition bind {A B : Type} (m : M A) (k : A -> M B) : M B :=
  fun h =>
    match m h with
    | (Ok a, h') => k a h'
    | (Raise e, h') => (Raise e, h')
    end.

Definition lift {A : Type} (r : result A) : M A := fun h => (r, h).

(** The values an array shows (nothing, should its buffer be missing). *)
Definition contents (a : array) (h : store) : list float :=
  take (len a) (drop (off a) (default [] (h !! buf a))).

Definition get (a : array) : M (list float) := fun h => (Ok (contents a h), h).

(** A new array with a buffer of its own. *)
Definition alloc (xs : list float) : M array :=
  fun h =>
    let l := fresh (dom h) in
    (Ok (Array l 0 (length xs)), <[l := xs]> h).

(** [a[:k]] and [a[:-1]]: windows onto the buffer of [a]. *)
Definition upto (k : nat) (a : array) : array :=
  Array (buf a) (off a) (k `min` len a).

Definition but_last (a : array) : array :=
  Array (buf a) (off a) (len a - 1).

(** [a[i] = v] writes into the buffer of [a]. *)
Definition setitem (a : array) (i : nat) (v : float) : M unit :=
  fun h =>
    if decide (i < len a)%nat
    then (Ok (), alter (fun b => <[(off a + i)%nat := v]> b) (buf a) h)
    else (Raise IndexError, h).

(** [a[mask(a)] = 0] writes into the buffer of [a]. *)
Definition zero_where (mask : float -> bool) (a : array) : M unit :=
  fun h =>
    (Ok (),
     alter (fun b => take (off a) b
                     ++ Np.zero_where mask (take (len a) (drop (off a) b))
                     ++ drop (off a + len a) b)
           (buf a) h).

End Mem.

#[global] Instance mem_bind : MBind Mem.M := fun A B k m => Mem.bind m k.
#[global] Instance mem_ret : MRet Mem.M := @Mem.ret.

Module NpMem.

Import Mem.

Definition zeros (n : Z) : M array := xs ← lift (Np.zeros n); alloc xs.
Definition zeros_like (a : array) : M array := alloc (replicate (len a) 0%float).
Definition cumsum (a : array) : M array := xs ← get a; alloc (Np.cumsum xs).
Definition sum (a : array) : M float := xs ← get a; ret (Np.sum xs).
Definition mul (a b : array) : M array :=
  xs ← get a; ys ← get b; zs ← lift (Np.mul xs ys); alloc zs.
Definition square (a : array) : M array := xs ← get a; alloc (Np.square xs).
Definition getitem (a : array) (j : nat) : M float :=
  xs ← get a; lift (Np.getitem xs j).
Definition all_eq_zero (a : array) : M bool :=
  xs ← get a; ret (Np.all_eq_zero xs).
Definition round (a : array) : M array := xs ← get a; alloc (Np.round xs).
Definition hstack0 (a : array) : M array := xs ← get a; alloc (Np.hstack0 xs).
Definition not_nan (a : array) : M (list bool) := xs ← get a; ret (Np.not_nan xs).
Definition gather (a : array) (idx : list nat) : M array :=
  xs ← get a; ys ← lift (Np.gather xs idx); alloc ys.

Fixpoint for_each (js : list nat) (body : nat -> M unit) : M unit :=
  match js with
  | [] => ret ()
  | j :: js' => _ ← body j; for_each js' body
  end.

End NpMem.

Section OptimizersMem.

Import Mem.

Variable ppf : float -> float.

(** The fare transformation, on the store. *)
Variable fare_transformation_mem :
  array -> array -> option float -> M (array * array).

Definition EMSRb_body_mem (fares demands sigmas y : array) (j : nat) : M unit :=
  S_j ← NpMem.sum (upto j demands);
  weighted ← NpMem.mul (upto j demands) (upto j fares);
  total ← NpMem.sum weighted;
  demand ← NpMem.sum (upto j demands);
  let p_j_bar := (total / demand)%float in
  p_j_plus_1 ← NpMem.getitem fares j;
  let z_alpha := ppf (1 - p_j_plus_1 / p_j_bar)%float in
  squares ← NpMem.square (upto j sigmas);
  variance ← NpMem.sum squares;
  let sigma := sqrt variance in
  let mu := S_j in
  setitem y (j - 1) (mu + z_alpha * sigma)%float.

Definition EMSRb_mem (fares demands : array) (sigmas : option array) : M array :=
  y ← NpMem.zeros (Z.of_nat (len fares) - 1);
  y ← match sigmas with
      | Some s =>
          all_zero ← NpMem.all_eq_zero s;
          if all_zero : bool then
            c ← NpMem.cumsum demands; mret (but_last c)
          else
            _ ← NpMem.for_each (Py.range 1 (len fares))
                  (EMSRb_body_mem fares demands s y);
            _ ← zero_where Np.negative y;
            _ ← zero_where is_nan y;
            mret y
      | None => c ← NpMem.cumsum demands; mret (but_last c)
      end;
  r ← NpMem.round y;
  NpMem.hstack0 r.

(** Modelled from the spec: [pyrm.helpers.fill_nan] on the store, "a
    full-length vector with values placed at those indices and a fill value
    (zero) elsewhere", in a buffer of its own. *)
Definition fill_nan_mem (shape : nat) (indices : list nat) (values : array)
    : M array :=
  vs ← get values; alloc (fill_nan shape indices vs).

Definition EMSRb_MR_mem (fares demands : array) (sigmas : option array)
    (cap : option float) : M array :=
  sigmas ← match sigmas with
           | None => NpMem.zeros_like fares
           | Some s => mret s
           end;
  '(adjusted_fares, adjusted_demand) ← fare_transformation_mem fares demands cap;
  mask ← NpMem.not_nan adjusted_fares;
  let efficient_indices := Np.where_ mask in
  selected ← NpMem.gather adjusted_fares efficient_indices;
  if negb (Nat.eqb (len selected) 0) then
    fares_ ← NpMem.gather adjusted_fares efficient_indices;
    demands_ ← NpMem.gather adjusted_demand efficient_indices;
    sigmas_ ← NpMem.gather sigmas efficient_indices;
    protection_levels_ ← EMSRb_mem fares_ demands_ (Some sigmas_);
    fill_nan_mem (len fares) efficient_indices protection_levels_
  else
    NpMem.zeros_like fares.

End OptimizersMem.

(** ** The vocabulary of the statements *)

#[global] Instance float_inhabited : Inhabited float := populate 0%float.

(** Signs and zeros of a binary64 number, on the float and on its decoded
    form. *)
Module F64.

Definition SFsigned (s : bool) (x : spec_float) : Prop :=
  match x with
  | S754_zero s' | S754_infinity s' | S754_finite s' _ _ => s' = s
  | S754_nan => False
  end.

Definition SFnonneg (x : spec_float) : Prop :=
  match x with
  | S754_zero _ | S754_infinity false | S754_finite false _ _ => True
  | _ => False
  end.

Definition SFzero (x : spec_float) : Prop :=
  match x with
  | S754_zero _ => True
  | _ => False
  end.

Definition SFzero_or_nan (x : spec_float) : Prop :=
  match x with
  | S754_zero _ | S754_nan => True
  | _ => False
  end.

Definition nonneg (x : float) : Prop := (0 <=? x)%float = true.
Definition zero (x : float) : Prop := (x =? 0)%float = true.

(** A float with no fractional part: NaN, an infinity, a zero, or
    [m * 2^e] with [e >= 0] or with [m] a multiple of [2^(-e)]. *)
Definition SFwhole (x : spec_float) : bool :=
  match x with
  | S754_finite _ m e => (0 <=? e) || (Z.pos m mod 2 ^ (- e) =? 0)
  | _ => true
  end.

Definition whole (x : float) : bool := SFwhole (Prim2SF x).

(** Rounding to the nearest integer, a value halfway between two integers
    going to the even one: [n] is [m / 2^k] rounded, said with the distance
    [|n - m / 2^k| <= 1/2] and not with a way to compute it. *)
Definition nearest_even (m k n : Z) : Prop :=
  2 * Z.abs (n * 2 ^ k - m) <= 2 ^ k
  /\ (2 * Z.abs (n * 2 ^ k - m) = 2 ^ k -> Z.even n = true).

(** The absolute value of a decoded float is the integer [n]. *)
Definition SFmagnitude (v : spec_float) (n : Z) : Prop :=
  match v with
  | S754_zero _ => n = 0
  | S754_finite _ m e => Z.pos m * 2 ^ Z.max e 0 = n * 2 ^ Z.max (- e) 0
  | _ => False
  end.

(** [v] is [x] rounded: NaN, the infinities, the zeros and the numbers
    [m * 2^e] with [e >= 0], which are integers, stay as they are; a
    number [m * 2^e] with [e < 0] goes to the nearest integer, with the
    sign of [x] also when that integer is zero. *)
Definition SFrounded (x v : spec_float) : Prop :=
  match x with
  | S754_finite s m e =>
      (0 <= e -> v = x)
      /\ (e < 0 ->
          SFsigned s v
          /\ exists n, nearest_even (Z.pos m) (- e) n /\ SFmagnitude v n)
  | _ => v = x
  end.

Definition rounded (x v : float) : Prop := SFrounded (Prim2SF x) (Prim2SF v).

End F64.

(** What "the sum of" a vector means on [float64], where the order of the
    additions shows in the last bits: the entries, each of them once,
    put together by additions in some order, zeros besides. *)
Module Add.

Inductive tree : Type :=
| Zero
| Term (x : float)
| Plus (s t : tree).

Fixpoint value (t : tree) : float :=
  match t with
  | Zero => 0%float
  | Term x => x
  | Plus s t => (value s + value t)%float
  end.

Fixpoint terms (t : tree) : list float :=
  match t with
  | Zero => []
  | Term x => [x]
  | Plus s t => terms s ++ terms t
  end.

End Add.

Definition adds_up (a : list float) (v : float) : Prop :=
  exists t, Add.terms t ≡ₚ a /\ Add.value t = v.

(** The shape contract of the optimizers: vectors of one length [N >= 1]. *)
Definition valid_shape (fares demands : list float)
    (sigmas : option (list float)) : Prop :=
  length demands = length fares /\ (1 <= length fares)%nat /\
  match sigmas with
  | Some s => length s = length fares
  | None => True
  end.

(** The interface of the fare transformation: two vectors as long as its
    input. *)
Definition transforms
    (fare_transformation :
       list float -> list float -> option float -> result (list float * list float))
    (fares demands : list float) (cap : option float) (af ad : list float)
    : Prop :=
  fare_transformation fares demands cap = Ok (af, ad)
  /\ length af = length fares /\ length ad = length fares.

Definition efficient (af : list float) : list nat :=
  Np.where_ (Np.not_nan af).

(** The product of the two prefixes of length [j] is accepted. *)
Definition prefixes_multiply (demands : list float) (j : nat) : Prop :=
  (j <= length demands)%nat \/ length demands = 1%nat \/ j = 1%nat.

(** Lines 50 and 51, entry by entry. *)
Definition clamp1 (v : float) : float :=
  if (v <? 0)%float || is_nan v then 0%float else v.

(** From any store that extends [old], the computation keeps the buffers of
    [old] as they are, and what it returns satisfies [Q]. *)
Definition keeps {A : Type} (old : gmap nat (list float)) (m : Mem.M A)
    (Q : A -> Prop) : Prop :=
  forall h, old ⊆ h -> old ⊆ (m h).2 /\ forall r, (m h).1 = Ok r -> Q r.

(** The array has a buffer that [old] does not hold. *)
Definition own_buffer (old : gmap nat (list float)) (a : Mem.array) : Prop :=
  Mem.buf a ∉ dom old.

(** In store [h] the array [a] shows the values [xs]. *)
Definition shows (h : gmap nat (list float)) (a : Mem.array) (xs : list float)
    : Prop :=
  Mem.contents a h = xs /\ Mem.len a = length xs /\ Mem.buf a ∈ dom h.

(** Every array with a buffer other than [l] shows in [h'] what it shows
    in [h]. *)
Definition agree_off (l : nat) (h h' : gmap nat (list float)) : Prop :=
  forall a xs, Mem.buf a <> l -> shows h a xs -> shows h' a xs.

(** The fare transformation on the store returns arrays showing what the
    fare transformation on values returns, and keeps the arrays that
    exist. *)
Definition transformation_agrees
    (fare_transformation :
       list float -> list float -> option float -> result (list float * list float))
    (fare_transformation_mem :
       Mem.array -> Mem.array -> option float -> Mem.M (Mem.array * Mem.array))
    : Prop :=
  forall h f d cap F D,
    shows h f F -> shows h d D ->
    match fare_transformation_mem f d cap h with
    | (Ok (af, ad), h') =>
        exists AF AD, fare_transformation F D cap = Ok (AF, AD)
                      /\ shows h' af AF /\ shows h' ad AD /\ h ⊆ h'
    | (Raise e, _) => fare_transformation F D cap = Raise e
    end.

(** ** Worked inputs *)

Module Sample.

(** The tangent of the normal quantile at the median,
    [sqrt(2 pi) * (p - 1/2)], stands in for [norm.ppf] where a worked
    input needs a function. *)
Definition ppf (p : float) : float :=
  (0x1.40d931ff62705p+1 * (p - 0.5))%float.

Definition fares : list float := [100; 75; 50]%float.
Definition demands : list float := [10; 20; 30]%float.
Definition sigmas : list float := [3; 4; 12]%float.

Definition fares4 : list float := [100; 75; 50; 25]%float.
Definition demands4 : list float := [10; 20; 30; 40]%float.
Definition sigmas4 : list float := [3; 4; 12; 5]%float.

(** A fully undifferentiated structure: every class stays efficient. *)
Definition keep_all (fares demands : list float) (cap : option float)
    : result (list float * list float) :=
  Ok (fares, demands).

(** Every class inefficient. *)
Definition drop_all (fares demands : list float) (cap : option float)
    : result (list float * list float) :=
  Ok (map (fun _ => nan) fares, demands).

(** The classes at odd ranks stay efficient. *)
Fixpoint alternate (drop : bool) (fares : list float) : list float :=
  match fares with
  | [] => []
  | f :: fares' => (if drop then nan else f) :: alternate (negb drop) fares'
  end.

Definition keep_odd (fares demands : list float) (cap : option float)
    : result (list float * list float) :=
  Ok (alternate true fares, demands).

(** A store holding the four-class vectors, and the arrays showing them. *)
Definition store4 : gmap nat (list float) :=
  {[ 0%nat := fares4; 1%nat := demands4; 2%nat := sigmas4 ]}.
Definition fares4_ref : Mem.array := Mem.Array 0 0 4.
Definition demands4_ref : Mem.array := Mem.Array 1 0 4.
Definition sigmas4_ref : Mem.array := Mem.Array 2 0 4.

(** [keep_all] on the store: it hands its arguments back. *)
Definition keep_all_mem (fares demands : Mem.array) (cap : option float)
    : Mem.M (Mem.array * Mem.array) :=
  mret (fares, demands).

End Sample.

(** * Lemmas *)

(** ** binary64 arithmetic: signs, zeros and NaN *)

Section Binary64.

Import F64.

(** *** Rounding to the format keeps the sign *)

Section Rounding.
Variables prec emax : Z.

Lemma shr_1_nonneg mrs : 0 <= shr_m mrs -> 0 <= shr_m (shr_1 mrs).
Proof. destruct mrs as [[|[p|p|]|p] r s]; simpl; lia. Qed.

Lemma shr_1_half mrs : 0 <= shr_m mrs -> shr_m (shr_1 mrs) = shr_m mrs / 2.
Proof.
  destruct mrs as [[|[p|p|]|p] r s]; simpl; try lia; intros _; try reflexivity.
  - apply Z.div_unique with 1; lia.
  - apply Z.div_unique with 0; lia.
Qed.

Lemma iter_shr_1 (p : positive) mrs :
  0 <= shr_m mrs ->
  0 <= shr_m (SpecFloat.iter_pos shr_1 p mrs) /\
  shr_m (SpecFloat.iter_pos shr_1 p mrs) = shr_m mrs / 2 ^ Zpos p.
Proof.
  revert mrs; induction p as [p IH|p IH|]; intros mrs Hm;
    cbn [SpecFloat.iter_pos].
  - pose proof (shr_1_nonneg _ Hm) as H1. pose proof (shr_1_half _ Hm) as E1.
    destruct (IH _ H1) as [H2 E2]. destruct (IH _ H2) as [H3 E3].
    split; [done|]. rewrite E3, E2, E1.
    rewrite !Z.div_div by lia. f_equal.
    replace (Z.pos p~1) with (1 + Z.pos p + Z.pos p) by lia.
    rewrite !Z.pow_add_r by lia. lia.
  - destruct (IH _ Hm) as [H2 E2]. destruct (IH _ H2) as [H3 E3].
    split; [done|]. rewrite E3, E2.
    rewrite !Z.div_div by lia. f_equal.
    replace (Z.pos p~0) with (Z.pos p + Z.pos p) by lia.
    rewrite !Z.pow_add_r by lia. lia.
  - split; [by apply shr_1_nonneg|]. by rewrite shr_1_half.
Qed.

Lemma shr_nonneg mrs e n : 0 <= shr_m mrs -> 0 <= shr_m (shr mrs e n).1.
Proof.
  intros Hm. destruct n as [|p|p]; simpl; try done.
  by apply iter_shr_1.
Qed.

Lemma shr_record_of_loc_m m l : shr_m (shr_record_of_loc m l) = m.
Proof. by destruct l as [|[]]. Qed.

Lemma shr_fexp_nonneg m e l :
  0 <= m -> 0 <= shr_m (shr_fexp prec emax m e l).1.
Proof.
  intros Hm. unfold shr_fexp. apply shr_nonneg.
  by rewrite shr_record_of_loc_m.
Qed.

Lemma round_nearest_even_ge m l : m <= round_nearest_even m l.
Proof. destruct l as [|[]]; simpl; try destruct (Z.even m); lia. Qed.

Lemma binary_round_aux_signed sx m e l :
  0 <= m -> SFsigned sx (binary_round_aux prec emax sx m e l).
Proof.
  intros Hm. unfold binary_round_aux.
  pose proof (shr_fexp_nonneg m e l Hm) as H1.
  destruct (shr_fexp prec emax m e l) as [mrs' e']. simpl in H1.
  pose proof (round_nearest_even_ge (shr_m mrs') (loc_of_shr_record mrs')) as Hr.
  pose proof (shr_fexp_nonneg (round_nearest_even (shr_m mrs') (loc_of_shr_record mrs'))
                e' loc_Exact ltac:(lia)) as H2.
  destruct (shr_fexp prec emax _ e' loc_Exact) as [mrs'' e'']. simpl in H2.
  destruct (shr_m mrs'') as [|p|p]; simpl; [done| |lia].
  by destruct (e'' <=? emax - prec).
Qed.

Lemma binary_round_signed sx m e :
  SFsigned sx (binary_round prec emax sx m e).
Proof.
  unfold binary_round.
  destruct (shl_align m e _) as [mz ez].
  by apply binary_round_aux_signed.
Qed.

Lemma binary_normalize_nonneg m e :
  0 <= m -> SFsigned false (binary_normalize prec emax m e false).
Proof.
  intros Hm. destruct m as [|p|p]; simpl; [done| |lia].
  apply binary_round_signed.
Qed.

(** *** A sum of positive numbers does not vanish *)

Hypothesis prec_pos : 0 < prec.

Lemma digits2_pos_lower (m : positive) :
  2 ^ (Zpos (digits2_pos m) - 1) <= Zpos m.
Proof.
  induction m as [m IH|m IH|]; cbn [digits2_pos]; [| |done].
  - rewrite Pos2Z.inj_succ.
    replace (Z.succ (Z.pos (digits2_pos m)) - 1)
      with (1 + (Z.pos (digits2_pos m) - 1)) by lia.
    rewrite Z.pow_add_r by lia. lia.
  - rewrite Pos2Z.inj_succ.
    replace (Z.succ (Z.pos (digits2_pos m)) - 1)
      with (1 + (Z.pos (digits2_pos m) - 1)) by lia.
    rewrite Z.pow_add_r by lia. lia.
Qed.

Lemma shr_fexp_pos m e l :
  0 < m -> SpecFloat.emin prec emax <= e ->
  0 < shr_m (shr_fexp prec emax m e l).1
  /\ SpecFloat.emin prec emax <= (shr_fexp prec emax m e l).2.
Proof.
  intros Hm He. unfold shr_fexp, shr.
  destruct m as [|p|p]; try lia. cbn [Zdigits2].
  pose proof (digits2_pos_lower p) as Hd.
  set (d := Z.pos (digits2_pos p)) in *.
  unfold fexp.
  destruct (Z.max (d + e - prec) (SpecFloat.emin prec emax) - e) as [|n|n] eqn:En;
    cbn [fst snd]; rewrite ?shr_record_of_loc_m; try (split; lia).
  assert (Z.pos n = d - prec) as Hn by lia.
  destruct (iter_shr_1 n (shr_record_of_loc (Z.pos p) l)) as [_ ->];
    rewrite shr_record_of_loc_m; [lia|].
  split; [|lia].
  apply Z.div_str_pos. split; [lia|].
  etrans; [|exact Hd]. apply Z.pow_le_mono_r; lia.
Qed.

Lemma binary_round_aux_pos sx m e l :
  0 < m -> SpecFloat.emin prec emax <= e ->
  ~ SFzero (binary_round_aux prec emax sx m e l).
Proof.
  intros Hm He. unfold binary_round_aux.
  destruct (shr_fexp_pos m e l Hm He) as [H1 He1].
  destruct (shr_fexp prec emax m e l) as [mrs' e']. cbn [fst snd] in *.
  pose proof (round_nearest_even_ge (shr_m mrs') (loc_of_shr_record mrs')) as Hr.
  destruct (shr_fexp_pos (round_nearest_even (shr_m mrs') (loc_of_shr_record mrs'))
              e' loc_Exact ltac:(lia) He1) as [H2 _].
  destruct (shr_fexp prec emax _ e' loc_Exact) as [mrs'' e'']. cbn [fst] in H2.
  destruct (shr_m mrs'') as [|p|p]; try lia.
  destruct (e'' <=? emax - prec); simpl; tauto.
Qed.

Lemma binary_round_pos sx m e :
  SpecFloat.emin prec emax <= e ->
  ~ SFzero (binary_round prec emax sx m e).
Proof.
  intros He. unfold binary_round, shl_align.
  destruct (fexp prec emax (Z.pos (digits2_pos m) + e) - e) as [|d|d] eqn:Ed;
    apply binary_round_aux_pos; try lia.
  unfold fexp in *. lia.
Qed.

Lemma valid_binary_emin s m e :
  SpecFloat.valid_binary prec emax (S754_finite s m e) = true ->
  SpecFloat.emin prec emax <= e.
Proof.
  unfold SpecFloat.valid_binary, bounded, canonical_mantissa, fexp.
  intros [H%Z.eqb_eq _]%andb_prop. lia.
Qed.

(** *** Addition on non-negative numbers *)

Lemma SFadd_nonneg x y :
  SFnonneg x -> SFnonneg y -> SFnonneg (SFadd prec emax x y).
Proof.
  destruct x as [sx|[]| |[] mx ex], y as [sy|[]| |[] my ey]; simpl; try done.
  - by destruct sx, sy.
  - intros _ _.
    pose proof (binary_round_signed false
      ((shl_align mx ex (Z.min ex ey)).1 + (shl_align my ey (Z.min ex ey)).1)
      (Z.min ex ey)) as H.
    by destruct (binary_round _ _ _ _ _) as [|[]| |[] ? ?].
Qed.

Lemma SFadd_zero_inv x y :
  SpecFloat.valid_binary prec emax x = true ->
  SpecFloat.valid_binary prec emax y = true ->
  SFnonneg x -> SFnonneg y -> SFzero (SFadd prec emax x y) ->
  SFzero x /\ SFzero y.
Proof.
  destruct x as [sx|[]| |[] mx ex], y as [sy|[]| |[] my ey]; simpl; try done.
  intros Hx Hy _ _ H. exfalso.
  apply (valid_binary_emin false) in Hx, Hy.
  revert H. apply binary_round_pos. lia.
Qed.

Lemma SFadd_zero_or_nan x y :
  SFzero_or_nan x -> SFzero_or_nan y -> SFzero_or_nan (SFadd prec emax x y).
Proof.
  destruct x as [sx|[]| |[] mx ex], y as [sy|[]| |[] my ey]; simpl; try done.
  by destruct sx, sy.
Qed.

Lemma SFmul_zero_l x y : SFzero x -> SFzero_or_nan (SFmul prec emax x y).
Proof. by destruct x, y. Qed.

Lemma SFdiv_zero_or_nan x y :
  SFzero_or_nan x -> SFzero y -> SFdiv prec emax x y = S754_nan.
Proof. by destruct x, y. Qed.

End Rounding.

(** *** Primitive floats, through their specification *)

Lemma SFeqb_refl x : SFeqb x x = true <-> x <> S754_nan.
Proof.
  unfold SFeqb. destruct x as [s|[]| |[] m e]; simpl;
    rewrite ?Z.compare_refl, ?Pos.compare_cont_refl; simpl; split; done.
Qed.

Lemma is_nan_spec x : is_nan x = true <-> Prim2SF x = S754_nan.
Proof.
  unfold is_nan. rewrite FloatAxioms.eqb_spec, negb_true_iff.
  pose proof (SFeqb_refl (Prim2SF x)) as H.
  destruct (SFeqb (Prim2SF x) (Prim2SF x)); split; intros E; try done.
  - exfalso. by apply H.
  - destruct (Prim2SF x); try done; exfalso;
      assert (false = true) as Habs by (by apply H); done.
Qed.

Lemma not_nan_spec x : is_nan x = false <-> Prim2SF x <> S754_nan.
Proof.
  rewrite <- is_nan_spec. destruct (is_nan x); split; done.
Qed.

Lemma nonneg_spec x : nonneg x <-> SFnonneg (Prim2SF x).
Proof.
  unfold nonneg. rewrite FloatAxioms.leb_spec. change (Prim2SF 0) with (S754_zero false).
  by destruct (Prim2SF x) as [s|[]| |[] m e].
Qed.

Lemma zero_spec x : zero x <-> SFzero (Prim2SF x).
Proof.
  unfold zero. rewrite FloatAxioms.eqb_spec. change (Prim2SF 0) with (S754_zero false).
  by destruct (Prim2SF x) as [s|[]| |[] m e].
Qed.

Lemma zero_or_nan_spec x :
  zero x \/ is_nan x = true <-> SFzero_or_nan (Prim2SF x).
Proof.
  rewrite zero_spec, is_nan_spec.
  destruct (Prim2SF x) as [s|[]| |[] m e]; simpl; split; try tauto;
    intros [[]|]; done.
Qed.

Lemma nonneg_not_nan x : nonneg x -> is_nan x = false.
Proof.
  rewrite nonneg_spec, not_nan_spec. by destruct (Prim2SF x).
Qed.

Lemma zero_nonneg x : zero x -> nonneg x.
Proof. rewrite zero_spec, nonneg_spec. by destruct (Prim2SF x). Qed.

(** What is neither below zero nor NaN is at least zero. *)
Lemma not_negative_nonneg x :
  (x <? 0)%float = false -> is_nan x = false -> nonneg x.
Proof.
  rewrite FloatAxioms.ltb_spec, not_nan_spec, nonneg_spec.
  change (Prim2SF 0) with (S754_zero false).
  by destruct (Prim2SF x) as [s|[]| |[] m e].
Qed.

Lemma nan_not_negative x : is_nan x = true -> (x <? 0)%float = false.
Proof. rewrite FloatAxioms.ltb_spec, is_nan_spec. by intros ->. Qed.

Lemma prec_pos : 0 < prec.
Proof. done. Qed.

Lemma add_nonneg x y : nonneg x -> nonneg y -> nonneg (x + y).
Proof. rewrite !nonneg_spec, FloatAxioms.add_spec. apply SFadd_nonneg. Qed.

Lemma add_zero_inv x y :
  nonneg x -> nonneg y -> zero (x + y) -> zero x /\ zero y.
Proof.
  rewrite !nonneg_spec, !zero_spec, FloatAxioms.add_spec.
  apply SFadd_zero_inv; [apply prec_pos|apply Prim2SF_valid..].
Qed.

Lemma add_zero_or_nan x y :
  zero x \/ is_nan x = true -> zero y \/ is_nan y = true ->
  zero (x + y) \/ is_nan (x + y) = true.
Proof. rewrite !zero_or_nan_spec, FloatAxioms.add_spec. apply SFadd_zero_or_nan. Qed.

Lemma mul_zero_l x y : zero x -> zero (x * y) \/ is_nan (x * y) = true.
Proof. rewrite zero_or_nan_spec, zero_spec, FloatAxioms.mul_spec. apply SFmul_zero_l. Qed.

Lemma div_zero_nan x y :
  zero x \/ is_nan x = true -> zero y -> is_nan (x / y) = true.
Proof.
  rewrite zero_or_nan_spec, zero_spec, is_nan_spec, FloatAxioms.div_spec.
  apply SFdiv_zero_or_nan.
Qed.

(** NaN goes through the arithmetic of the loop. *)
Lemma div_nan_r x y : is_nan y = true -> is_nan (x / y) = true.
Proof.
  rewrite !is_nan_spec, FloatAxioms.div_spec. intros ->. by destruct (Prim2SF x).
Qed.

Lemma sub_nan_r x y : is_nan y = true -> is_nan (x - y) = true.
Proof.
  rewrite !is_nan_spec, FloatAxioms.sub_spec. intros ->. by destruct (Prim2SF x).
Qed.

Lemma mul_nan_l x y : is_nan x = true -> is_nan (x * y) = true.
Proof. rewrite !is_nan_spec, FloatAxioms.mul_spec. by intros ->. Qed.

Lemma add_nan_r x y : is_nan y = true -> is_nan (x + y) = true.
Proof.
  rewrite !is_nan_spec, FloatAxioms.add_spec. intros ->. by destruct (Prim2SF x).
Qed.

Lemma sub_nan_l x y : is_nan x = true -> is_nan (x - y) = true.
Proof. rewrite !is_nan_spec, FloatAxioms.sub_spec. by intros ->. Qed.

Lemma mul_nan_r x y : is_nan y = true -> is_nan (x * y) = true.
Proof.
  rewrite !is_nan_spec, FloatAxioms.mul_spec. intros ->. by destruct (Prim2SF x).
Qed.

End Binary64.

(** ** [np.round]: sign and NaN *)

Section Rint.

Import F64.

Lemma SFsigned_not_nan s x : SFsigned s x -> x <> S754_nan.
Proof. by destruct x. Qed.

Lemma SFsigned_nonneg x : SFsigned false x -> SFnonneg x.
Proof. destruct x as [s|s| |s m e]; simpl; try done; by intros ->. Qed.

Lemma SFrint_signed s x : SFsigned s x -> SFsigned s (Np.SFrint x).
Proof.
  destruct x as [s'|s'| |s' m e]; simpl; try done. intros ->.
  destruct (0 <=? e); [done|]. by destruct (Np.round_half_even _ _).
Qed.

(** Encoding a decoded float rounds it to the format, and rounding keeps
    the sign. *)
Lemma SF2Prim_signed s x : SFsigned s x -> SFsigned s (Prim2SF (SF2Prim x)).
Proof.
  destruct x as [s'|s'| |s' m e]; try done.
  - intros Hs. by rewrite Prim2SF_SF2Prim.
  - intros Hs. by rewrite Prim2SF_SF2Prim.
  - simpl. intros ->. cbn [SF2Prim].
    assert (SFsigned false
              (Prim2SF (Z.ldexp (of_uint63 (Uint63.of_Z (Z.pos m))) e))) as H.
    { rewrite Z_ldexp_spec, of_uint63_spec.
      pose proof (binary_normalize_nonneg prec emax
                    (Uint63.to_Z (Uint63.of_Z (Z.pos m))) 0
                    (proj1 (Uint63.to_Z_bounded _))) as Hn.
      destruct (binary_normalize _ _ _ _ _) as [sx|sx| |sx mx ex];
        simpl in *; try done. subst sx. apply binary_round_signed. }
    destruct s; [|done]. rewrite FloatAxioms.opp_spec.
    destruct (Prim2SF _) as [sx|sx| |sx mx ex]; simpl in *; try done;
      by subst sx.
Qed.

Lemma rint_signed s x :
  SFsigned s (Prim2SF x) -> SFsigned s (Prim2SF (Np.rint x)).
Proof. intros H. by apply SF2Prim_signed, SFrint_signed. Qed.

Lemma rint_not_nan x : is_nan x = false -> is_nan (Np.rint x) = false.
Proof.
  rewrite !not_nan_spec. intros Hx.
  assert (exists s, SFsigned s (Prim2SF x)) as [s Hs].
  { destruct (Prim2SF x) as [s|s| |s m e]; try done; by exists s. }
  eapply SFsigned_not_nan, rint_signed, Hs.
Qed.

Lemma rint_nonneg x : nonneg x -> nonneg (Np.rint x).
Proof.
  rewrite !nonneg_spec. intros Hx.
  destruct (Prim2SF x) as [s|[]| |[] m e] eqn:E; try done.
  - unfold Np.rint. rewrite E. cbn [Np.SFrint]. by rewrite Prim2SF_SF2Prim.
  - apply SFsigned_nonneg, rint_signed. by rewrite E.
  - apply SFsigned_nonneg, rint_signed. by rewrite E.
Qed.

Lemma rint_0 : Np.rint 0 = 0%float.
Proof. reflexivity. Qed.

End Rint.

(** ** Arrays: lengths, lookups, index sets *)

Section ArrayFacts.

Implicit Types (a y : Np.ndarray) (idx : list nat) (mask : list bool).

Lemma zeros_pred (n : nat) :
  (1 <= n)%nat ->
  Np.zeros (Z.of_nat n - 1) = Ok (replicate (n - 1) 0%float).
Proof.
  intros Hn. unfold Np.zeros.
  destruct (Z.ltb_spec (Z.of_nat n - 1) 0) as [Hlt|Hge]; [lia|].
  do 2 f_equal. lia.
Qed.

Lemma zeros_empty : Np.zeros (Z.of_nat 0 - 1) = Raise ValueError.
Proof. reflexivity. Qed.

Lemma length_cumsum_from acc a : length (Np.cumsum_from acc a) = length a.
Proof. revert acc; induction a as [|x a IH]; intros acc; simpl; [done|]. by rewrite IH. Qed.

Lemma length_cumsum a : length (Np.cumsum a) = length a.
Proof. destruct a as [|x a]; simpl; [done|]. by rewrite length_cumsum_from. Qed.

Lemma length_but_last a : length (Np.but_last a) = (length a - 1)%nat.
Proof. unfold Np.but_last. rewrite length_take. lia. Qed.

Lemma lookup_cumsum_from acc a (k : nat) :
  (k < length a)%nat ->
  Np.cumsum_from acc a !! k = Some (foldl PrimFloat.add acc (take (S k) a)).
Proof.
  revert acc k; induction a as [|x a IH]; intros acc k Hk; simpl in *; [lia|].
  destruct k as [|k]; simpl.
  - by destruct a.
  - rewrite IH by lia. done.
Qed.

(** Entry [j-1] of the cumulative sum is the demand of classes [0..j-1]. *)
Lemma lookup_cumsum a (j : nat) :
  (1 <= j <= length a)%nat ->
  Np.cumsum a !! (j - 1)%nat = Some (cumulative_demand a j).
Proof.
  intros Hj. unfold cumulative_demand.
  destruct a as [|x a]; simpl in *; [lia|].
  destruct j as [|j]; [lia|]. simpl. rewrite Nat.sub_0_r.
  destruct j as [|j]; simpl.
  - by destruct a.
  - rewrite lookup_cumsum_from by lia. done.
Qed.

Lemma where_from_bounds (i : nat) mask :
  Forall (fun k => i <= k < i + length mask)%nat (Np.where_from i mask).
Proof.
  revert i; induction mask as [|b mask IH]; intros i; simpl; [constructor|].
  assert (Forall (fun k => i <= k < i + S (length mask))%nat
            (Np.where_from (S i) mask)) as Hrest.
  { eapply Forall_impl; [apply IH|]. simpl. lia. }
  destruct b; [constructor; [lia|]|]; done.
Qed.

Lemma where_from_all (i : nat) mask :
  Forall (fun b => b = true) mask ->
  Np.where_from i mask = seq i (length mask).
Proof.
  intros H; revert i; induction H as [|b mask -> _ IH]; intros i; simpl; [done|].
  by rewrite IH.
Qed.

Lemma where_from_none (i : nat) mask :
  Forall (fun b => b = false) mask ->
  Np.where_from i mask = [].
Proof.
  intros H; revert i; induction H as [|b mask -> _ IH]; intros i; simpl; [done|].
  by rewrite IH.
Qed.

(** The positions come out in strictly ascending order: the first one is
    below all the others. *)
Lemma where_from_head (i i0 : nat) mask idx :
  Np.where_from i mask = i0 :: idx ->
  Forall (fun k => i0 < k)%nat idx /\
  (forall k, (i <= k < i0)%nat -> mask !! (k - i)%nat = Some false).
Proof.
  revert i; induction mask as [|b mask IH]; intros i; simpl; [done|].
  destruct b.
  - intros [= <- <-]. split; [|lia].
    eapply Forall_impl; [apply where_from_bounds|]. simpl. lia.
  - intros H. destruct (IH _ H) as [Hgt Hlow]. split; [done|].
    intros k Hk. destruct (decide (k = i)) as [->|Hne].
    + by rewrite Nat.sub_diag.
    + replace (k - i)%nat with (S (k - S i)) by lia. simpl.
      apply Hlow. lia.
Qed.

Lemma gather_ok a idx :
  Forall (fun i => i < length a)%nat idx ->
  exists xs, Np.gather a idx = Ok xs /\ length xs = length idx /\
             forall k i, idx !! k = Some i -> xs !! k = a !! i.
Proof.
  induction 1 as [|i idx Hi _ (xs & Hxs & Hlen & Hlook)]; simpl.
  - exists []. split; [done|]. split; [done|]. by intros k i.
  - unfold Np.getitem. destruct (lookup_lt_is_Some_2 a i Hi) as [x Hx].
    rewrite Hx. simpl. rewrite Hxs. simpl. exists (x :: xs).
    split; [done|]. split; [simpl; lia|].
    intros [|k] i'; simpl; [by intros [= <-] | apply Hlook].
Qed.

Lemma gather_seq a (i n : nat) :
  (i + n <= length a)%nat ->
  Np.gather a (seq i n) = Ok (take n (drop i a)).
Proof.
  revert i; induction n as [|n IH]; intros i Hi; simpl; [by rewrite take_0|].
  unfold Np.getitem.
  destruct (lookup_lt_is_Some_2 a i ltac:(lia)) as [x Hx]. rewrite Hx. simpl.
  rewrite IH by lia. simpl.
  rewrite (drop_S a x i Hx). done.
Qed.

Lemma gather_all a : Np.gather a (seq 0 (length a)) = Ok a.
Proof. rewrite gather_seq by lia. by rewrite drop_0, firstn_all. Qed.

End ArrayFacts.

(** ** The loop of [EMSRb] *)

Section Loop.

Variable ppf : float -> float.

Implicit Types (fares demands sigmas y : list float).

Lemma EMSRb_body_ok fares demands sigmas (j : nat) y :
  length demands = length fares ->
  (1 <= j < length fares)%nat ->
  length y = (length fares - 1)%nat ->
  EMSRb_body ppf fares demands sigmas j y
  = Ok (<[(j - 1)%nat := gaussian_level ppf fares demands sigmas j]> y).
Proof.
  intros Hlen Hj Hy. unfold EMSRb_body, Np.mul, Np.upto.
  rewrite decide_True by (rewrite !length_take; lia).
  py_step.
  unfold Np.getitem.
  destruct (lookup_lt_is_Some_2 fares j ltac:(lia)) as [p Hp].
  rewrite Hp. py_step.
  unfold Np.setitem. rewrite decide_True by lia.
  unfold gaussian_level, S_, z_, p_bar, sigma_, Np.square.
  by rewrite (nth_lookup_Some _ _ 0%float _ Hp).
Qed.

Lemma for_each_levels fares demands sigmas (n a : nat) y :
  length demands = length fares ->
  (1 <= a)%nat -> (a + n <= length fares)%nat ->
  length y = (length fares - 1)%nat ->
  exists y',
    Py.for_each (seq a n) (EMSRb_body ppf fares demands sigmas) y = Ok y'
    /\ length y' = length y
    /\ (forall j, (a <= j < a + n)%nat ->
          y' !! (j - 1)%nat = Some (gaussian_level ppf fares demands sigmas j))
    /\ (forall k, ~ (a <= S k < a + n)%nat -> y' !! k = y !! k).
Proof.
  intros Hlen. revert a y. induction n as [|n IH]; intros a y Ha Han Hy; simpl.
  - exists y. split_and!; [done|done|intros; lia|done].
  - rewrite EMSRb_body_ok by (done || lia).
    cbn [Py.bind].
    destruct (IH (S a) (<[(a - 1)%nat := gaussian_level ppf fares demands sigmas a]> y))
      as (y' & Hrun & Hlen' & Hnew & Hold);
      [lia | lia | by rewrite length_insert |].
    exists y'. split; [done|]. split; [by rewrite Hlen', length_insert|].
    split.
    + intros j Hj. destruct (decide (j = a)) as [->|Hne].
      * rewrite Hold by lia.
        apply list_lookup_insert_eq. lia.
      * apply Hnew. lia.
    + intros k Hk. rewrite Hold by lia.
      apply list_lookup_insert_ne. lia.
Qed.

(** With vectors of one length the loop runs to its end, and writes every
    entry of [y]. *)
Lemma EMSRb_loop_ok fares demands sigmas y :
  length demands = length fares ->
  length y = (length fares - 1)%nat ->
  exists y',
    EMSRb_loop ppf fares demands sigmas y = Ok y'
    /\ length y' = (length fares - 1)%nat
    /\ forall j, (1 <= j < length fares)%nat ->
         y' !! (j - 1)%nat = Some (gaussian_level ppf fares demands sigmas j).
Proof.
  intros Hlen Hy. unfold EMSRb_loop, Py.range.
  destruct fares as [|f fares'] eqn:Hf.
  { exists y. split_and!; [done|done|simpl; intros; lia]. }
  rewrite <- Hf in *. assert (1 <= length fares)%nat by (subst; simpl; lia).
  clear Hf.
  destruct (for_each_levels fares demands sigmas (length fares - 1) 1 y)
    as (y' & Hrun & Hlen' & Hnew & _); [done|lia|lia|done|].
  exists y'. split; [done|]. split; [lia|].
  intros j Hj. apply Hnew. lia.
Qed.

Lemma EMSRb_deterministic fares demands (sigmas : option (list float)) :
  fares <> [] ->
  deterministic sigmas = true ->
  EMSRb ppf fares demands sigmas
  = Ok (0%float :: map Np.rint (Np.but_last (Np.cumsum demands))).
Proof.
  intros Hne Hdet. unfold EMSRb.
  rewrite zeros_pred by (destruct fares; simpl; [done|lia]).
  py_step.
  destruct sigmas as [s|]; simpl in Hdet; [rewrite Hdet|]; done.
Qed.

Lemma EMSRb_gaussian fares demands sigmas :
  length demands = length fares ->
  fares <> [] ->
  Np.all_eq_zero sigmas = false ->
  exists y,
    EMSRb_loop ppf fares demands sigmas (replicate (length fares - 1) 0%float) = Ok y
    /\ length y = (length fares - 1)%nat
    /\ (forall j, (1 <= j < length fares)%nat ->
         y !! (j - 1)%nat = Some (gaussian_level ppf fares demands sigmas j))
    /\ EMSRb ppf fares demands (Some sigmas)
       = Ok (0%float :: map Np.rint (EMSRb_clamp y)).
Proof.
  intros Hlen Hne Hgauss.
  destruct (EMSRb_loop_ok fares demands sigmas (replicate (length fares - 1) 0%float))
    as (y & Hrun & Hy & Hlev); [done|by rewrite length_replicate|].
  exists y. repeat split; try done.
  unfold EMSRb.
  rewrite zeros_pred by (destruct fares; simpl; [done|lia]).
  py_step. rewrite Hgauss, Hrun. done.
Qed.

Lemma length_clamp y : length (EMSRb_clamp y) = length y.
Proof. unfold EMSRb_clamp, Np.zero_where. by rewrite !length_map. Qed.

(** On vectors of one length [EMSRb] returns, with a zero in front. *)
Lemma EMSRb_returns fares demands (sigmas : option (list float)) :
  length demands = length fares ->
  fares <> [] ->
  exists y,
    EMSRb ppf fares demands sigmas = Ok (0%float :: y)
    /\ length y = (length fares - 1)%nat.
Proof.
  intros Hlen Hne.
  destruct (deterministic sigmas) eqn:Hdet.
  - rewrite EMSRb_deterministic by done. eexists. split; [done|].
    by rewrite length_map, length_but_last, length_cumsum, Hlen.
  - destruct sigmas as [s|]; [|done]. simpl in Hdet.
    destruct (EMSRb_gaussian fares demands s) as (y & _ & Hy & _ & ->); try done.
    eexists. split; [done|]. by rewrite length_map, length_clamp.
Qed.

End Loop.

(** ** The loop on vectors of different lengths *)

Section Shapes.

Variable ppf : float -> float.

Implicit Types (fares demands sigmas y : list float).

Lemma mul_returns (a b : list float) :
  length a = length b \/ length a = 1%nat \/ length b = 1%nat ->
  exists c, Np.mul a b = Ok c.
Proof.
  intros H. unfold Np.mul.
  destruct (decide (length a = length b)) as [|Hne]; [by eexists|].
  destruct H as [H|[H|H]]; [done| |].
  - destruct a as [|x [|x' a]]; simpl in H; try lia. by eexists.
  - destruct b as [|z [|z' b]]; simpl in H; try lia.
    destruct a as [|x [|x' a]]; by eexists.
Qed.

Lemma mul_raises (a b : list float) :
  length a <> length b -> length a <> 1%nat -> length b <> 1%nat ->
  Np.mul a b = Raise ValueError.
Proof.
  intros Hne Ha Hb. unfold Np.mul. rewrite decide_False by done.
  destruct a as [|x [|x' a]], b as [|z [|z' b]]; simpl in *; done.
Qed.

Lemma EMSRb_body_returns fares demands sigmas (j : nat) y :
  (1 <= j < length fares)%nat ->
  length y = (length fares - 1)%nat ->
  prefixes_multiply demands j ->
  exists y', EMSRb_body ppf fares demands sigmas j y = Ok y'
             /\ length y' = length y.
Proof.
  intros Hj Hy Hok. unfold EMSRb_body, Np.upto.
  destruct (mul_returns (take j demands) (take j fares)) as [w ->].
  { rewrite !length_take. unfold prefixes_multiply in Hok. lia. }
  py_step. unfold Np.getitem.
  destruct (lookup_lt_is_Some_2 fares j ltac:(lia)) as [p ->]. py_step.
  unfold Np.setitem. rewrite decide_True by lia.
  eexists. split; [done|]. by rewrite length_insert.
Qed.

Lemma EMSRb_body_raises fares demands sigmas (j : nat) y :
  (1 <= j < length fares)%nat ->
  ~ prefixes_multiply demands j ->
  EMSRb_body ppf fares demands sigmas j y = Raise ValueError.
Proof.
  intros Hj Hbad. unfold EMSRb_body, Np.upto.
  rewrite mul_raises; [done|..]; rewrite ?length_take;
    unfold prefixes_multiply in Hbad; lia.
Qed.

Lemma for_each_returns fares demands sigmas (n a : nat) y :
  (1 <= a)%nat -> (a + n <= length fares)%nat ->
  length y = (length fares - 1)%nat ->
  (forall j, (a <= j < a + n)%nat -> prefixes_multiply demands j) ->
  exists y', Py.for_each (seq a n) (EMSRb_body ppf fares demands sigmas) y = Ok y'.
Proof.
  revert a y. induction n as [|n IH]; intros a y Ha Han Hy Hok; simpl.
  - by eexists.
  - destruct (EMSRb_body_returns fares demands sigmas a y) as (y1 & -> & Hy1);
      [lia|done|apply Hok; lia|].
    cbn [Py.bind]. apply IH; [lia|lia|lia|]. intros j Hj. apply Hok. lia.
Qed.

Lemma for_each_raises fares demands sigmas (n a j : nat) y :
  (1 <= a)%nat -> (a + n <= length fares)%nat ->
  length y = (length fares - 1)%nat ->
  (a <= j < a + n)%nat -> ~ prefixes_multiply demands j ->
  Py.for_each (seq a n) (EMSRb_body ppf fares demands sigmas) y
  = Raise ValueError.
Proof.
  revert a y. induction n as [|n IH]; intros a y Ha Han Hy Hj Hbad; simpl; [lia|].
  assert (Decision (prefixes_multiply demands a)) as [Hok|Hno].
  { unfold prefixes_multiply. apply _. }
  - destruct (EMSRb_body_returns fares demands sigmas a y) as (y1 & -> & Hy1);
      [lia|done|done|].
    cbn [Py.bind]. apply IH; [lia|lia|lia| |done].
    destruct (decide (j = a)) as [->|]; [done|lia].
  - rewrite EMSRb_body_raises; [done|lia|done].
Qed.

(** [EMSRb] checks no lengths itself.  It raises when [fares] is empty, or
    when numpy refuses a product of prefixes in the loop; otherwise it
    returns, whatever the lengths of [demands] and [sigmas]. *)
Lemma EMSRb_raises_when fares demands (sigmas : option (list float)) :
  Py.raises (EMSRb ppf fares demands sigmas) <->
  fares = [] \/
  (deterministic sigmas = false /\ (3 <= length fares)%nat
   /\ (length demands <= length fares - 2)%nat /\ length demands <> 1%nat).
Proof.
  destruct fares as [|f fares'] eqn:Hf; [simpl; tauto|]. rewrite <- Hf.
  assert (fares <> []) as Hne by (by rewrite Hf).
  assert (1 <= length fares)%nat as HN by (rewrite Hf; simpl; lia).
  clear Hf f fares'.
  destruct (deterministic sigmas) eqn:Hdet.
  { rewrite EMSRb_deterministic by done. simpl. split; [done|].
    intros [?|(? & _)]; done. }
  destruct sigmas as [s|]; [|done]. simpl in Hdet.
  unfold EMSRb. rewrite zeros_pred by done. py_step. rewrite Hdet.
  unfold EMSRb_loop, Py.range.
  destruct (decide (3 <= length fares /\ length demands <= length fares - 2
                    /\ length demands <> 1)%nat) as [(H3 & Hd & H1)|Hnot].
  - rewrite (for_each_raises fares demands s _ 1 (length fares - 1));
      [|lia|lia|by rewrite length_replicate|lia|unfold prefixes_multiply; lia].
    simpl. split; [|done]. intros _. right. done.
  - destruct (for_each_returns fares demands s (length fares - 1) 1
                (replicate (length fares - 1) 0%float)) as [y ->];
      [lia|lia|by rewrite length_replicate| |].
    { intros j Hj. unfold prefixes_multiply. lia. }
    simpl. split; [done|]. intros [?|(_ & ? & ? & ?)]; [done|]. apply Hnot. lia.
Qed.

End Shapes.

(** ** Re-expansion: [fill_nan] *)

Section FillNan.

Implicit Types (out values : list float) (indices : list nat).

Lemma length_scatter indices values out :
  length (Np.scatter out (zip indices values)) = length out.
Proof.
  revert values out; induction indices as [|i indices IH];
    intros [|v values] out; simpl; try done.
  unfold Np.scatter in IH. by rewrite IH, length_insert.
Qed.

Lemma scatter_outside indices values out (p : nat) :
  p ∉ indices ->
  Np.scatter out (zip indices values) !! p = out !! p.
Proof.
  revert values out; induction indices as [|i indices IH];
    intros [|v values] out Hp; simpl; try done.
  apply not_elem_of_cons in Hp as [Hne Hp].
  unfold Np.scatter in IH. rewrite IH by done. simpl.
  by apply list_lookup_insert_ne.
Qed.

Lemma scatter_at indices values out (k p : nat) v :
  NoDup indices ->
  indices !! k = Some p -> values !! k = Some v ->
  (p < length out)%nat ->
  Np.scatter out (zip indices values) !! p = Some v.
Proof.
  intros Hnd; revert values out k.
  induction Hnd as [|i indices Hi Hnd IH]; intros [|v0 values] out k; try done.
  destruct k as [|k]; simpl.
  - intros [= ->] [= ->] Hp.
    fold (Np.scatter (<[p:=v]> out) (zip indices values)).
    rewrite scatter_outside by done. by apply list_lookup_insert_eq.
  - intros Hk Hv Hp. eapply IH; [done|done|]. by rewrite length_insert.
Qed.

Lemma length_fill_nan shape indices values :
  length (fill_nan shape indices values) = shape.
Proof.
  unfold fill_nan. fold (Np.scatter (replicate shape 0%float) (zip indices values)).
  by rewrite length_scatter, length_replicate.
Qed.

(** Positions that were not computed on hold the fill value. *)
Lemma fill_nan_outside shape indices values (p : nat) :
  (p < shape)%nat -> p ∉ indices ->
  fill_nan shape indices values !! p = Some 0%float.
Proof.
  intros Hp Hnot. unfold fill_nan.
  fold (Np.scatter (replicate shape 0%float) (zip indices values)).
  rewrite scatter_outside by done. by apply lookup_replicate_2.
Qed.

(** The [k]-th value lands at the [k]-th index. *)
Lemma fill_nan_at shape indices values (k p : nat) v :
  NoDup indices ->
  indices !! k = Some p -> values !! k = Some v ->
  (p < shape)%nat ->
  fill_nan shape indices values !! p = Some v.
Proof.
  intros Hnd Hk Hv Hp. unfold fill_nan.
  fold (Np.scatter (replicate shape 0%float) (zip indices values)).
  eapply scatter_at; [done..|]. by rewrite length_replicate.
Qed.

(** Filling every position gives the values back. *)
Lemma fill_nan_all values :
  fill_nan (length values) (seq 0 (length values)) values = values.
Proof.
  apply list_eq; intros p.
  destruct (decide (p < length values)%nat) as [Hp|Hp].
  - destruct (lookup_lt_is_Some_2 values p Hp) as [v Hv]. rewrite Hv.
    eapply fill_nan_at; [apply NoDup_seq| |done|done].
    by apply lookup_seq_lt.
  - rewrite (lookup_ge_None_2 values) by lia.
    apply lookup_ge_None_2. rewrite length_fill_nan. lia.
Qed.

End FillNan.

(** ** [EMSRb_MR]: filter, compute, re-expand *)

Section MarginalRevenue.

Variable ppf : float -> float.
Variable fare_transformation :
  list float -> list float -> option float -> result (list float * list float).

Implicit Types (fares demands af ad : list float) (cap : option float).

Lemma efficient_bounds af :
  Forall (fun i => i < length af)%nat (efficient af).
Proof.
  unfold efficient, Np.where_, Np.not_nan.
  eapply Forall_impl; [apply where_from_bounds|].
  simpl. intros i. rewrite length_map. lia.
Qed.

Lemma efficient_NoDup af : NoDup (efficient af).
Proof.
  unfold efficient, Np.where_. generalize (Np.not_nan af) 0%nat.
  intros mask; induction mask as [|b mask IH]; intros i; simpl; [constructor|].
  destruct b; [|done]. constructor; [|done].
  intros Hin. pose proof (where_from_bounds (S i) mask) as Hb.
  rewrite Forall_forall in Hb. specialize (Hb _ Hin). lia.
Qed.

Lemma efficient_all af :
  Forall (fun x => is_nan x = false) af ->
  efficient af = seq 0 (length af).
Proof.
  intros H. unfold efficient, Np.where_, Np.not_nan.
  rewrite where_from_all; [by rewrite length_map|].
  apply Forall_fmap. eapply Forall_impl; [done|].
  intros x Hx; simpl. by rewrite Hx.
Qed.

Lemma efficient_none af :
  Forall (fun x => is_nan x = true) af ->
  efficient af = [].
Proof.
  intros H. unfold efficient, Np.where_, Np.not_nan.
  apply where_from_none.
  apply Forall_fmap. eapply Forall_impl; [done|].
  intros x Hx; simpl. by rewrite Hx.
Qed.

(** Below the first efficient index every adjusted fare is NaN. *)
Lemma efficient_first af (i0 : nat) idx :
  efficient af = i0 :: idx ->
  (i0 < length af)%nat /\ Forall (fun k => i0 < k)%nat idx /\
  forall p x, (p < i0)%nat -> af !! p = Some x -> is_nan x = true.
Proof.
  intros Heff. pose proof (efficient_bounds af) as Hb. rewrite Heff in Hb.
  apply Forall_cons in Hb as [Hi0 _]. split; [done|].
  unfold efficient, Np.where_ in Heff.
  destruct (where_from_head _ _ _ _ Heff) as [Hgt Hlow]. split; [done|].
  intros p x Hp Hx. specialize (Hlow p ltac:(lia)).
  rewrite Nat.sub_0_r in Hlow. unfold Np.not_nan in Hlow.
  rewrite list_lookup_fmap, Hx in Hlow. simpl in Hlow.
  injection Hlow as Hlow. by apply negb_false_iff.
Qed.

Lemma all_eq_zero_zeros (n : nat) :
  Np.all_eq_zero (replicate n 0%float) = true.
Proof. induction n as [|n IH]; simpl; [done|]. by rewrite IH. Qed.

(** With no efficient class the answer is the zero vector. *)
Lemma EMSRb_MR_none fares demands sigmas cap af ad :
  fare_transformation fares demands cap = Ok (af, ad) ->
  efficient af = [] ->
  EMSRb_MR ppf fare_transformation fares demands sigmas cap
  = Ok (replicate (length fares) 0%float).
Proof.
  intros Hft Heff. unfold EMSRb_MR. rewrite Hft.
  py_step. fold (efficient af). rewrite Heff.
  done.
Qed.

(** With some efficient class: [EMSRb] on the efficient classes returns,
    and its levels are put back at their indices. *)
Lemma EMSRb_MR_some fares demands sigmas cap af ad :
  valid_shape fares demands sigmas ->
  transforms fare_transformation fares demands cap af ad ->
  efficient af <> [] ->
  exists fares_ demands_ sigmas_ y,
    Np.gather af (efficient af) = Ok fares_
    /\ Np.gather ad (efficient af) = Ok demands_
    /\ Np.gather (default (Np.zeros_like fares) sigmas) (efficient af) = Ok sigmas_
    /\ EMSRb ppf fares_ demands_ (Some sigmas_) = Ok (0%float :: y)
    /\ S (length y) = length (efficient af)
    /\ EMSRb_MR ppf fare_transformation fares demands sigmas cap
       = Ok (fill_nan (length fares) (efficient af) (0%float :: y)).
Proof.
  intros (Hd & HN & Hs) (Hft & Haf & Had) Hne.
  pose proof (efficient_bounds af) as Hb.
  destruct (gather_ok af (efficient af) Hb) as (fares_ & Hg1 & Hl1 & _).
  destruct (gather_ok ad (efficient af)) as (demands_ & Hg2 & Hl2 & _).
  { by rewrite Had, <- Haf. }
  destruct (gather_ok (default (Np.zeros_like fares) sigmas) (efficient af))
    as (sigmas_ & Hg3 & Hl3 & _).
  { replace (length (default (Np.zeros_like fares) sigmas)) with (length af); [done|].
    destruct sigmas as [s|]; simpl; [lia|].
    unfold Np.zeros_like. rewrite length_replicate. lia. }
  destruct (EMSRb_returns ppf fares_ demands_ (Some sigmas_)) as (y & Hy & Hly).
  { lia. }
  { intros ->. simpl in Hl1. by destruct (efficient af). }
  exists fares_, demands_, sigmas_, y. split_and!; try done.
  { rewrite Hly, Hl1. destruct (efficient af); simpl in *; [done|lia]. }
  assert (negb (length fares_ =? 0)%nat = true) as Hsel.
  { rewrite Hl1. by destruct (efficient af). }
  unfold EMSRb_MR. rewrite Hft. py_step.
  fold (efficient af). rewrite Hg1. py_step. rewrite Hsel.
  replace (match sigmas with Some s => s | None => Np.zeros_like fares end)
    with (default (Np.zeros_like fares) sigmas) by (by destruct sigmas).
  rewrite Hg2. py_step. rewrite Hg3. py_step. rewrite Hy. done.
Qed.

(** The first efficient class gets the zero [EMSRb] puts in front, and the
    classes before it, not being computed on, keep the fill value. *)
Lemma EMSRb_MR_first fares demands sigmas cap af ad (i0 : nat) idx :
  valid_shape fares demands sigmas ->
  transforms fare_transformation fares demands cap af ad ->
  efficient af = i0 :: idx ->
  exists out,
    EMSRb_MR ppf fare_transformation fares demands sigmas cap = Ok out
    /\ length out = length fares
    /\ forall p, (p <= i0)%nat -> out !! p = Some 0%float.
Proof.
  intros Hv Ht Heff.
  destruct (EMSRb_MR_some fares demands sigmas cap af ad)
    as (f_ & d_ & s_ & y & _ & _ & _ & _ & _ & ->); [done|done|by rewrite Heff|].
  eexists. split; [done|]. split; [by rewrite length_fill_nan|].
  destruct (efficient_first af i0 idx Heff) as (Hi0 & Hgt & _).
  destruct Ht as (_ & Haf & _).
  intros p Hp. destruct (decide (p = i0)) as [->|Hne].
  - eapply (fill_nan_at _ _ _ 0%nat); [apply efficient_NoDup|by rewrite Heff|done|lia].
  - apply fill_nan_outside; [lia|]. rewrite Heff.
    apply not_elem_of_cons. split; [done|].
    intros Hin. rewrite Forall_forall in Hgt. specialize (Hgt _ Hin). lia.
Qed.

(** With every class efficient, [EMSRb_MR] is [EMSRb] on the adjusted
    vectors. *)
Lemma EMSRb_MR_all fares demands sigmas cap af ad :
  valid_shape fares demands sigmas ->
  transforms fare_transformation fares demands cap af ad ->
  Forall (fun x => is_nan x = false) af ->
  EMSRb_MR ppf fare_transformation fares demands sigmas cap
  = EMSRb ppf af ad sigmas.
Proof.
  intros Hv Ht Hall. pose proof Hv as (Hd & HN & Hs).
  pose proof Ht as (Hft & Haf & Had).
  pose proof (efficient_all af Hall) as Heff.
  destruct (EMSRb_MR_some fares demands sigmas cap af ad)
    as (f_ & d_ & s_ & y & Hg1 & Hg2 & Hg3 & Hy & Hly & ->); [done|done| |].
  { rewrite Heff, Haf. destruct (length fares); simpl; [lia|done]. }
  rewrite Heff in *. rewrite length_seq in Hly.
  rewrite gather_all in Hg1. injection Hg1 as <-.
  rewrite Haf, <- Had, gather_all in Hg2. injection Hg2 as <-.
  replace (length fares) with (length (0%float :: y)) by (simpl; lia).
  replace (length af) with (length (0%float :: y)) by (simpl; lia).
  rewrite fill_nan_all. rewrite <- Hy.
  destruct sigmas as [s|]; simpl in Hg3.
  - rewrite Haf, <- Hs, gather_all in Hg3. by injection Hg3 as <-.
  - unfold Np.zeros_like in Hg3.
    replace (length af) with (length (replicate (length fares) 0%float)) in Hg3
      by (rewrite length_replicate; lia).
    rewrite gather_all in Hg3. injection Hg3 as <-.
    rewrite !EMSRb_deterministic; try done.
    + intros ->. simpl in Haf. lia.
    + intros ->. simpl in Haf. lia.
    + simpl. apply all_eq_zero_zeros.
Qed.

End MarginalRevenue.

(** ** Sums of demands *)

Section Sums.

Import F64.

Implicit Types (a : list float) (acc : float).

Lemma cumsum_from_nonneg acc a :
  nonneg acc -> Forall nonneg a -> Forall nonneg (Np.cumsum_from acc a).
Proof.
  intros Hacc Ha; revert acc Hacc.
  induction Ha as [|x a Hx _ IH]; intros acc Hacc; simpl; [done|].
  assert (nonneg (acc + x)) by (by apply add_nonneg).
  constructor; [done|]. by apply IH.
Qed.

Lemma cumsum_nonneg a : Forall nonneg a -> Forall nonneg (Np.cumsum a).
Proof.
  destruct 1 as [|x a Hx Ha]; simpl; [done|].
  constructor; [done|]. by apply cumsum_from_nonneg.
Qed.

(** *** numpy's sum is a sum *)

Lemma adds_up_zero : adds_up [] 0.
Proof. by exists Add.Zero. Qed.

Lemma adds_up_term (x : float) : adds_up [x] x.
Proof. by exists (Add.Term x). Qed.

Lemma adds_up_plus (l l' : list float) (x y : float) :
  adds_up l x -> adds_up l' y -> adds_up (l ++ l') (x + y).
Proof.
  intros (s & Hs & <-) (t & Ht & <-). exists (Add.Plus s t).
  split; [|done]. simpl. by rewrite Hs, Ht.
Qed.

Lemma adds_up_perm (l l' : list float) (v : float) :
  l ≡ₚ l' -> adds_up l v -> adds_up l' v.
Proof. intros Hp (t & Ht & <-). exists t. split; [by rewrite Ht|done]. Qed.

Lemma adds_up_snoc (l : list float) (x y : float) :
  adds_up l x -> adds_up (l ++ [y]) (x + y).
Proof. intros H. apply adds_up_plus; [done|apply adds_up_term]. Qed.

Lemma adds_up_foldl (l : list float) acc a :
  adds_up l acc -> adds_up (l ++ a) (foldl PrimFloat.add acc a).
Proof.
  revert l acc. induction a as [|x a IH]; intros l acc H; simpl.
  - by rewrite app_nil_r.
  - eapply adds_up_perm; [|apply IH, adds_up_snoc, H].
    by rewrite <- app_assoc.
Qed.

(** Eight accumulators, each a sum of the elements it was given, make a
    sum of all of them. *)
Lemma block_loop_adds_up a :
  forall (l0 l1 l2 l3 l4 l5 l6 l7 : list float)
         (r0 r1 r2 r3 r4 r5 r6 r7 : float),
    adds_up l0 r0 -> adds_up l1 r1 -> adds_up l2 r2 -> adds_up l3 r3 ->
    adds_up l4 r4 -> adds_up l5 r5 -> adds_up l6 r6 -> adds_up l7 r7 ->
    adds_up (l0 ++ l1 ++ l2 ++ l3 ++ l4 ++ l5 ++ l6 ++ l7 ++ a)
      (Np.block_loop r0 r1 r2 r3 r4 r5 r6 r7 a).
Proof.
  induction a as [a IH] using (induction_ltof1 _ (@length float)).
  unfold ltof in IH.
  intros l0 l1 l2 l3 l4 l5 l6 l7 r0 r1 r2 r3 r4 r5 r6 r7
    H0 H1 H2 H3 H4 H5 H6 H7.
  assert (adds_up (((l0 ++ l1) ++ (l2 ++ l3)) ++ ((l4 ++ l5) ++ (l6 ++ l7)))
            (r0 + r1 + (r2 + r3) + (r4 + r5 + (r6 + r7)))) as Hall
    by (by repeat apply adds_up_plus).
  destruct a as [|a0 [|a1 [|a2 [|a3 [|a4 [|a5 [|a6 [|a7 a']]]]]]]];
    cbn [Np.block_loop];
    try (eapply adds_up_perm; [|apply adds_up_foldl, Hall];
         solve_Permutation).
  eapply adds_up_perm;
    [|apply (IH a' ltac:(simpl; lia)
               (l0 ++ [a0]) (l1 ++ [a1]) (l2 ++ [a2]) (l3 ++ [a3])
               (l4 ++ [a4]) (l5 ++ [a5]) (l6 ++ [a6]) (l7 ++ [a7]));
      by apply adds_up_snoc].
  solve_Permutation.
Qed.

Lemma block_sum_adds_up a : adds_up a (Np.block_sum a).
Proof.
  destruct a as [|a0 [|a1 [|a2 [|a3 [|a4 [|a5 [|a6 [|a7 a']]]]]]]];
    cbn [Np.block_sum];
    try (eapply adds_up_perm; [|apply adds_up_foldl, adds_up_zero]; done).
  eapply adds_up_perm;
    [|apply (block_loop_adds_up a' [a0] [a1] [a2] [a3] [a4] [a5] [a6] [a7]);
      apply adds_up_term].
  done.
Qed.

Lemma pairwise_sum_adds_up a : adds_up a (Np.pairwise_sum a).
Proof.
  funelim (Np.pairwise_sum a).
  - apply block_sum_adds_up.
  - eapply adds_up_perm; [|by apply adds_up_plus].
    by rewrite take_drop.
Qed.

(** [np.sum] adds every element once. *)
Lemma sum_adds_up a : adds_up a (Np.sum a).
Proof.
  unfold Np.sum.
  apply (adds_up_plus [] a); [apply adds_up_zero|apply pairwise_sum_adds_up].
Qed.

(** From eight elements on the order is numpy's, not left to right:
    eight times 0.1 is 0.8 for [np.sum] and 0.7999999999999999 when added
    one after the other. *)
Example sum_of_eight :
  Np.sum (replicate 8 0x1.999999999999ap-4%float) = 0x1.999999999999ap-1%float
  /\ foldl PrimFloat.add 0%float (replicate 8 0x1.999999999999ap-4%float)
     = 0x1.9999999999999p-1%float.
Proof. split; reflexivity. Qed.

Lemma adds_up_nonneg a (v : float) :
  adds_up a v -> Forall nonneg a -> nonneg v.
Proof.
  intros (t & Ht & <-). rewrite <- Ht. clear Ht.
  induction t as [|x|s IHs t IHt]; simpl.
  - done.
  - by intros ?%Forall_inv.
  - intros [??]%Forall_app. apply add_nonneg; auto.
Qed.

Lemma adds_up_zero_inv a (v : float) :
  adds_up a v -> Forall nonneg a -> zero v -> Forall zero a.
Proof.
  intros (t & Ht & <-). rewrite <- Ht. clear Ht.
  induction t as [|x|s IHs t IHt]; simpl.
  - done.
  - intros _ Hz. by apply Forall_singleton.
  - intros [Hs Ht]%Forall_app Hz.
    destruct (add_zero_inv (Add.value s) (Add.value t)); [| |done|].
    + apply (adds_up_nonneg (Add.terms s)); [by exists s|done].
    + apply (adds_up_nonneg (Add.terms t)); [by exists t|done].
    + apply Forall_app. auto.
Qed.

Lemma adds_up_zero_or_nan a (v : float) :
  adds_up a v ->
  Forall (fun x => zero x \/ is_nan x = true) a ->
  zero v \/ is_nan v = true.
Proof.
  intros (t & Ht & <-). rewrite <- Ht. clear Ht.
  induction t as [|x|s IHs t IHt]; simpl.
  - by left.
  - by intros ?%Forall_inv.
  - intros [??]%Forall_app. apply add_zero_or_nan; auto.
Qed.

Lemma sum_zero_inv a : Forall nonneg a -> zero (Np.sum a) -> Forall zero a.
Proof. intros Ha Hz. eapply adds_up_zero_inv; [apply sum_adds_up|done|done]. Qed.

Lemma zip_mul_zero a (b : list float) :
  Forall zero a ->
  Forall (fun x => zero x \/ is_nan x = true) (zip_with PrimFloat.mul a b).
Proof.
  intros Ha; revert b.
  induction Ha as [|x a Hx _ IH]; intros [|y b]; simpl; try done.
  constructor; [by apply mul_zero_l|apply IH].
Qed.

(** With no demand above the boundary the weighted average fare is
    [0 / 0]. *)
Lemma p_bar_nan fares demands (j : nat) :
  Forall nonneg (take j demands) ->
  zero (S_ demands j) ->
  is_nan (p_bar fares demands j) = true.
Proof.
  intros Hnn Hz. unfold p_bar. apply div_zero_nan; [|done].
  eapply adds_up_zero_or_nan; [apply sum_adds_up|].
  apply zip_mul_zero. by apply sum_zero_inv.
Qed.

Lemma gaussian_level_nan ppf fares demands sigmas (j : nat) :
  (forall p, is_nan p = true -> is_nan (ppf p) = true) ->
  Forall nonneg (take j demands) ->
  zero (S_ demands j) ->
  is_nan (gaussian_level ppf fares demands sigmas j) = true.
Proof.
  intros Hppf Hnn Hz. unfold gaussian_level, z_.
  apply add_nan_r, mul_nan_l, Hppf, sub_nan_r, div_nan_r.
  by apply p_bar_nan.
Qed.

Lemma EMSRb_clamp_map y : EMSRb_clamp y = map clamp1 y.
Proof.
  unfold EMSRb_clamp, Np.zero_where. rewrite map_map.
  apply map_ext. intros v. unfold clamp1, Np.negative.
  destruct (v <? 0)%float; [done|]. by destruct (is_nan v).
Qed.

Lemma clamp1_nonneg v : nonneg (clamp1 v).
Proof.
  unfold clamp1. destruct (v <? 0)%float eqn:Hneg; [done|].
  destruct (is_nan v) eqn:Hnan; [done|]. by apply not_negative_nonneg.
Qed.

Lemma clamp1_nan v : is_nan v = true -> clamp1 v = 0%float.
Proof. intros H. unfold clamp1. by rewrite H, orb_true_r. Qed.

End Sums.

(** ** Results that are exact *)

Section Exact.

Import F64.

Lemma iter_xO (m d : positive) :
  Z.pos (Pos.iter xO m d) = Z.pos m * 2 ^ Z.pos d.
Proof.
  induction d as [|d IH] using Pos.peano_ind.
  - simpl. lia.
  - rewrite Pos.iter_succ, Pos2Z.inj_xO, IH, Pos2Z.inj_succ, Z.pow_succ_r by lia.
    lia.
Qed.

Section Canonical.
Variables prec emax : Z.
Hypothesis prec_pos : 0 < prec.

(** Only [-0 + -0] is [-0]. *)
Lemma SFadd_negzero_inv x y :
  SpecFloat.valid_binary prec emax x = true ->
  SpecFloat.valid_binary prec emax y = true ->
  SFadd prec emax x y = S754_zero true ->
  x = S754_zero true /\ y = S754_zero true.
Proof.
  destruct x as [[]|[]| |sx mx ex], y as [[]|[]| |sy my ey]; simpl; try done.
  intros Hx Hy H. exfalso.
  apply (valid_binary_emin prec emax sx) in Hx.
  apply (valid_binary_emin prec emax sy) in Hy.
  destruct (_ + _) as [|p|p]; simpl in H; [done| |].
  - eapply (binary_round_pos prec emax prec_pos false p (Z.min ex ey)); [lia|].
    by rewrite H.
  - eapply (binary_round_pos prec emax prec_pos true p (Z.min ex ey)); [lia|].
    by rewrite H.
Qed.

Lemma digits2_pos_upper (m : positive) :
  Z.pos m < 2 ^ Z.pos (digits2_pos m).
Proof.
  induction m as [m IH|m IH|]; cbn [digits2_pos]; [| |done];
    rewrite Pos2Z.inj_succ, Z.pow_succ_r by lia; lia.
Qed.

Lemma digits2_pos_iter_xO (m d : positive) :
  digits2_pos (Pos.iter xO m d) = (digits2_pos m + d)%positive.
Proof.
  induction d as [|d IH] using Pos.peano_ind.
  - simpl. lia.
  - rewrite Pos.iter_succ. cbn [digits2_pos]. rewrite IH. lia.
Qed.

(** A mantissa that sits at its exponent is kept as it is. *)
Lemma binary_round_aux_canonical s (m : positive) e :
  fexp prec emax (Z.pos (digits2_pos m) + e) = e ->
  e <= emax - prec ->
  binary_round_aux prec emax s (Z.pos m) e loc_Exact = S754_finite s m e.
Proof.
  intros Hc He. unfold binary_round_aux, shr_fexp. cbn [Zdigits2].
  rewrite Hc, Z.sub_diag. cbn [shr shr_record_of_loc shr_m loc_of_shr_record
                               round_nearest_even Zdigits2].
  rewrite Hc, Z.sub_diag. cbn [shr shr_record_of_loc shr_m].
  by apply Z.leb_le in He as ->.
Qed.

(** A number of at most [prec] digits above the smallest exponent is in
    the format: rounding moves it to its exponent and changes nothing. *)
Lemma binary_round_exact s (m : positive) e :
  Z.pos (digits2_pos m) <= prec ->
  SpecFloat.emin prec emax <= e ->
  fexp prec emax (Z.pos (digits2_pos m) + e) <= emax - prec ->
  exists mz ez,
    binary_round prec emax s m e = S754_finite s mz ez
    /\ ez = fexp prec emax (Z.pos (digits2_pos m) + e)
    /\ ez <= e
    /\ Z.pos mz = Z.pos m * 2 ^ (e - ez)
    /\ Z.pos (digits2_pos mz) + ez = Z.pos (digits2_pos m) + e.
Proof.
  intros Hd He Hmax. unfold binary_round, shl_align.
  set (e' := fexp prec emax (Z.pos (digits2_pos m) + e)) in *.
  assert (e' <= e) as Hle by (unfold e', fexp; lia).
  destruct (e' - e) as [|p|p] eqn:Ep; [|lia|].
  - assert (e' = e) as Heq by lia. exists m, e.
    rewrite binary_round_aux_canonical by (fold e'; lia).
    split_and!; try done; try lia.
    rewrite Z.sub_diag. simpl. lia.
  - exists (Pos.iter xO m p), e'.
    assert (Z.pos (digits2_pos (Pos.iter xO m p)) + e'
            = Z.pos (digits2_pos m) + e) as Hdig.
    { rewrite digits2_pos_iter_xO. lia. }
    rewrite binary_round_aux_canonical by (rewrite ?Hdig; fold e'; lia).
    split_and!; try done.
    rewrite iter_xO. do 2 f_equal. lia.
Qed.

End Canonical.

Lemma add_negzero_inv x y :
  Prim2SF (x + y) = S754_zero true -> Prim2SF x = S754_zero true.
Proof.
  rewrite FloatAxioms.add_spec. intros H.
  by destruct (SFadd_negzero_inv prec emax prec_pos _ _
                 (Prim2SF_valid x) (Prim2SF_valid y) H).
Qed.

Lemma add_0_l x : Prim2SF x <> S754_zero true -> (0 + x)%float = x.
Proof.
  intros Hx. apply Prim2SF_inj. rewrite FloatAxioms.add_spec.
  change (Prim2SF 0) with (S754_zero false).
  by destruct (Prim2SF x) as [[]|[]| |s m e].
Qed.

Lemma foldl_add_not_negzero acc (a : list float) :
  Prim2SF acc <> S754_zero true ->
  Prim2SF (foldl PrimFloat.add acc a) <> S754_zero true.
Proof.
  revert acc. induction a as [|x a IH]; intros acc Hacc; simpl; [done|].
  apply IH. by intros ?%add_negzero_inv.
Qed.

Lemma pairwise_sum_short (a : list float) :
  (length a < 8)%nat ->
  Np.pairwise_sum a = foldl PrimFloat.add 0%float a.
Proof.
  intros Hlen. funelim (Np.pairwise_sum a); [|lia].
  by destruct a as [|a0 [|a1 [|a2 [|a3 [|a4 [|a5 [|a6 [|a7 a']]]]]]]];
    [..|simpl in Hlen; lia].
Qed.

(** Fewer than eight elements are added from left to right. *)
Lemma sum_short (a : list float) :
  (length a < 8)%nat -> Np.sum a = foldl PrimFloat.add 0%float a.
Proof.
  intros Hlen. unfold Np.sum. rewrite pairwise_sum_short by done.
  by apply add_0_l, foldl_add_not_negzero.
Qed.

(** *** [np.round] gives the nearest integer *)

Lemma round_half_even_nearest (m k : Z) :
  0 <= m -> 0 < k ->
  nearest_even m k (Np.round_half_even m k)
  /\ 0 <= Np.round_half_even m k <= m / 2 + 1.
Proof.
  intros Hm Hk. unfold nearest_even, Np.round_half_even. cbv zeta.
  rewrite Z.shiftr_div_pow2, Z.land_ones, Z.shiftl_mul_pow2 by lia.
  assert (2 ^ k = 2 * 2 ^ (k - 1)) as HP.
  { rewrite <- Z.pow_succ_r by lia. f_equal. lia. }
  assert (0 < 2 ^ (k - 1)) as HH by (apply Z.pow_pos_nonneg; lia).
  pose proof (Z.div_mod m (2 ^ k) ltac:(lia)) as Hdm.
  pose proof (Z.mod_pos_bound m (2 ^ k) ltac:(lia)) as Hr.
  assert (0 <= m / 2 ^ k <= m / 2) as Hq.
  { split; [apply Z.div_pos; lia|].
    apply Z.div_le_compat_l; lia. }
  set (q := m / 2 ^ k) in *. set (r := m mod 2 ^ k) in *.
  set (P := 2 ^ k) in *. set (H := 2 ^ (k - 1)) in *.
  rewrite Z.mul_1_l.
  destruct (Z.compare_spec r H) as [Heq|Hlt|Hgt].
  - destruct (Z.even q) eqn:Hev.
    + split; [|lia]. split; [lia|done].
    + split; [|lia]. split; [lia|]. intros _.
      by rewrite Z.add_1_r, Z.even_succ, <- Z.negb_even, Hev.
  - split; [|lia]. split; lia.
  - split; [|lia]. split; lia.
Qed.

(** A float is below [2^53] in its mantissa. *)
Lemma valid_mantissa s (m : positive) e :
  valid_binary (S754_finite s m e) = true -> Z.pos m < 2 ^ 53.
Proof.
  unfold valid_binary, bounded, canonical_mantissa, fexp.
  intros [H%Z.eqb_eq _]%andb_prop.
  pose proof (digits2_pos_upper m) as Hu.
  eapply Z.lt_le_trans; [exact Hu|].
  apply Z.pow_le_mono_r; [lia|]. unfold prec in H. lia.
Qed.

(** Encoding an integer below [2^53] loses nothing. *)
Lemma SF2Prim_exact s (n : positive) :
  Z.pos n < 2 ^ 53 ->
  exists mz ez,
    Prim2SF (SF2Prim (S754_finite s n 0)) = S754_finite s mz ez
    /\ ez <= 0 /\ Z.pos mz = Z.pos n * 2 ^ (- ez).
Proof.
  intros Hn.
  pose proof (digits2_pos_lower n) as Hlo.
  assert (Z.pos (digits2_pos n) <= 53) as Hd.
  { assert (Z.pos (digits2_pos n) - 1 < 53); [|lia].
    apply (Z.pow_lt_mono_r_iff 2); lia. }
  destruct (binary_round_exact prec emax false n 0)
    as (mz & ez & H1 & Hez & Hle & Hmz & Hdig);
    [done|done|unfold fexp, SpecFloat.emin, prec, emax; lia|].
  unfold fexp, SpecFloat.emin, prec, emax in Hez.
  destruct (binary_round_exact prec emax false mz (ez + 0))
    as (mz' & ez' & H2 & Hez' & _ & Hmz' & _);
    [unfold prec; lia|unfold SpecFloat.emin, prec, emax; lia
    |unfold fexp, SpecFloat.emin, prec, emax; lia|].
  unfold fexp, SpecFloat.emin, prec, emax in Hez'.
  assert (ez' = ez) as -> by lia.
  assert (mz' = mz) as ->.
  { apply Pos2Z.inj. rewrite Hmz'. replace (ez + 0 - ez) with 0 by lia. lia. }
  assert (Prim2SF (Z.ldexp (of_uint63 (Uint63.of_Z (Z.pos n))) 0)
          = S754_finite false mz ez) as H.
  { rewrite Z_ldexp_spec, of_uint63_spec, Uint63.of_Z_spec, Z.mod_small.
    - cbn [binary_normalize]. rewrite H1. cbn [SFldexp]. exact H2.
    - split; [lia|]. eapply Z.lt_trans; [exact Hn|done]. }
  exists mz, ez. split; [|split; [lia|]].
  - cbn [SF2Prim]. destruct s; [|done].
    by rewrite FloatAxioms.opp_spec, H.
  - rewrite Hmz. do 2 f_equal; lia.
Qed.

(** [np.round] rounds: what [rint] computes with shifts and masks is the
    nearest integer, the even one of two. *)
Lemma rint_rounded x : rounded x (Np.rint x).
Proof.
  unfold rounded, Np.rint. pose proof (Prim2SF_valid x) as Hv.
  destruct (Prim2SF x) as [s|s| |s m e] eqn:E; cbn [Np.SFrint SFrounded];
    try by rewrite Prim2SF_SF2Prim.
  split.
  - intros He. apply Z.leb_le in He as ->. by rewrite Prim2SF_SF2Prim.
  - intros He. apply Z.leb_gt in He as Hb. rewrite Hb.
    destruct (round_half_even_nearest (Z.pos m) (- e)) as (Hnear & H0 & Hup);
      [lia|lia|].
    pose proof (valid_mantissa s m e Hv) as Hm.
    destruct (Np.round_half_even (Z.pos m) (- e)) as [|n|n] eqn:En; [| |lia].
    + rewrite Prim2SF_SF2Prim by done. split; [done|]. by exists 0.
    + destruct (SF2Prim_exact s n) as (mz & ez & -> & Hez & Hmz).
      { assert (Z.pos m / 2 < 2 ^ 52); [|lia].
        apply Z.div_lt_upper_bound; lia. }
      split; [done|]. exists (Z.pos n). split; [done|].
      simpl. rewrite Z.max_r, Z.max_l by lia. rewrite Hmz. lia.
Qed.

End Exact.

(** ** [np.round]: the levels are whole numbers *)

Section Whole.

Import F64.

Local Abbreviation whole_at m e := (0 <= e \/ (2 ^ (- e) | m)).

Lemma SFwhole_finite s m e :
  SFwhole (S754_finite s m e) = true <-> whole_at (Z.pos m) e.
Proof.
  simpl. rewrite orb_true_iff, Z.leb_le, Z.eqb_eq.
  split; (intros [H|H]; [by left|]).
  - destruct (Z.le_gt_cases 0 e) as [?|He]; [by left|right].
    apply Z.mod_divide; [|done]. apply Z.pow_nonzero; lia.
  - destruct (Z.le_gt_cases 0 e) as [?|He]; [by left|right].
    apply Z.mod_divide; [|done]. apply Z.pow_nonzero; lia.
Qed.

Lemma shr_1_exact mrs (k : Z) :
  shr_m mrs = 2 * k -> shr_r mrs = false -> shr_s mrs = false ->
  shr_m (shr_1 mrs) = k /\ shr_r (shr_1 mrs) = false
  /\ shr_s (shr_1 mrs) = false.
Proof.
  destruct mrs as [m r s]. simpl. intros Hm -> ->.
  destruct m as [|[p|p|]|[p|p|]]; simpl; repeat split; lia.
Qed.

Lemma iter_shr_1_exact (p : positive) mrs (k : Z) :
  shr_m mrs = k * 2 ^ Z.pos p -> shr_r mrs = false -> shr_s mrs = false ->
  shr_m (SpecFloat.iter_pos shr_1 p mrs) = k
  /\ shr_r (SpecFloat.iter_pos shr_1 p mrs) = false
  /\ shr_s (SpecFloat.iter_pos shr_1 p mrs) = false.
Proof.
  revert mrs k; induction p as [p IH|p IH|]; intros mrs k Hm Hr Hs;
    cbn [SpecFloat.iter_pos].
  - destruct (shr_1_exact mrs (k * 2 ^ Z.pos p * 2 ^ Z.pos p))
      as (H1 & Hr1 & Hs1); [|done|done|].
    { rewrite Hm. replace (Z.pos p~1) with (1 + Z.pos p + Z.pos p) by lia.
      rewrite !Z.pow_add_r by lia. lia. }
    destruct (IH _ _ H1 Hr1 Hs1) as (H2 & Hr2 & Hs2).
    by apply IH.
  - destruct (IH mrs (k * 2 ^ Z.pos p)) as (H2 & Hr2 & Hs2); [|done|done|].
    { rewrite Hm. replace (Z.pos p~0) with (Z.pos p + Z.pos p) by lia.
      rewrite !Z.pow_add_r by lia. lia. }
    by apply IH.
  - apply shr_1_exact; [|done|done]. rewrite Hm. lia.
Qed.

Section Format.
Variables prec emax : Z.

(** Shifting a whole number to the format drops zero bits only: the
    result is whole, and below the units nothing is left to round. *)
Lemma shr_fexp_whole m e :
  0 <= m -> whole_at m e ->
  let r := shr_fexp prec emax m e loc_Exact in
  0 <= shr_m r.1
  /\ (0 <= r.2
      \/ ((2 ^ (- r.2) | shr_m r.1)
          /\ loc_of_shr_record r.1 = loc_Exact)).
Proof.
  intros Hm Hw. cbv zeta. split; [by apply shr_fexp_nonneg|].
  unfold shr_fexp, shr.
  destruct (fexp prec emax (Zdigits2 m + e) - e) as [|p|p] eqn:En;
    cbn [fst snd shr_record_of_loc shr_m loc_of_shr_record].
  - destruct Hw as [?|?]; [by left|by right].
  - destruct (Z.le_gt_cases 0 (e + Z.pos p)) as [?|He]; [by left|right].
    destruct Hw as [?|[k Hk]]; [lia|].
    destruct (iter_shr_1_exact p (Build_shr_record m false false)
                (k * 2 ^ (- (e + Z.pos p)))) as (H1 & Hr & Hs);
      [|done|done|].
    { simpl. rewrite Hk, <- Z.mul_assoc, <- Z.pow_add_r by lia.
      do 2 f_equal. lia. }
    split.
    + rewrite H1. by exists k.
    + destruct (SpecFloat.iter_pos shr_1 p _) as [m' r' s'].
      simpl in Hr, Hs. by subst.
  - destruct Hw as [?|?]; [by left|by right].
Qed.

Lemma binary_round_aux_whole s m e :
  0 <= m -> whole_at m e ->
  SFwhole (binary_round_aux prec emax s m e loc_Exact) = true.
Proof.
  intros Hm Hw. unfold binary_round_aux.
  pose proof (shr_fexp_whole m e Hm Hw) as [H1 W1]. cbv zeta in *.
  destruct (shr_fexp prec emax m e loc_Exact) as [mrs' e'].
  cbn [fst snd] in *.
  pose proof (round_nearest_even_ge (shr_m mrs') (loc_of_shr_record mrs'))
    as Hr.
  pose proof (shr_fexp_whole
                (round_nearest_even (shr_m mrs') (loc_of_shr_record mrs')) e'
                ltac:(lia)) as H2.
  cbv zeta in H2. destruct H2 as [_ W2].
  { destruct W1 as [?|[Hd ->]]; [by left|by right]. }
  destruct (shr_fexp prec emax _ e' loc_Exact) as [mrs'' e''].
  cbn [fst snd] in *.
  destruct (shr_m mrs'') as [|n|n]; [done| |done].
  destruct (e'' <=? emax - prec); [|done].
  apply SFwhole_finite. destruct W2 as [?|[? _]]; [by left|by right].
Qed.

Lemma binary_round_whole s m e :
  whole_at (Z.pos m) e -> SFwhole (binary_round prec emax s m e) = true.
Proof.
  intros Hw. unfold binary_round, shl_align.
  destruct (fexp prec emax (Z.pos (digits2_pos m) + e) - e) as [|d|d] eqn:Ed;
    apply binary_round_aux_whole; try done.
  set (e' := fexp prec emax (Z.pos (digits2_pos m) + e)) in *.
  rewrite iter_xO.
  destruct (Z.le_gt_cases 0 e') as [?|He]; [by left|right].
  destruct (Z.le_gt_cases 0 e) as [?|Hlt].
  - exists (Z.pos m * 2 ^ e). rewrite <- Z.mul_assoc, <- Z.pow_add_r by lia.
    do 2 f_equal. lia.
  - destruct Hw as [?|[k Hk]]; [lia|].
    exists k. rewrite Hk, <- Z.mul_assoc, <- Z.pow_add_r by lia.
    do 2 f_equal. lia.
Qed.

Lemma binary_normalize_whole m e sz :
  0 <= e -> SFwhole (binary_normalize prec emax m e sz) = true.
Proof.
  intros He. destruct m as [|p|p]; [done| |];
    apply binary_round_whole; by left.
Qed.

Lemma SFldexp_whole x e :
  0 <= e -> SFwhole x = true -> SFwhole (SFldexp prec emax x e) = true.
Proof.
  intros He. destruct x as [s|s| |s m ex]; try done.
  intros Hx%SFwhole_finite. cbn [SFldexp]. apply binary_round_whole.
  destruct (Z.le_gt_cases 0 (ex + e)) as [?|Hlt]; [by left|right].
  destruct Hx as [?|[k Hk]]; [lia|].
  exists (k * 2 ^ e). rewrite Hk, <- Z.mul_assoc, <- Z.pow_add_r by lia.
  do 2 f_equal. lia.
Qed.

End Format.

Lemma SFopp_whole x : SFwhole (SFopp x) = SFwhole x.
Proof. by destruct x. Qed.

(** Encoding an integer of exponent [e >= 0] rounds it to the format, and
    rounding a whole number gives a whole number. *)
Lemma SF2Prim_whole s m e :
  0 <= e -> whole (SF2Prim (S754_finite s m e)) = true.
Proof.
  intros He. unfold whole. cbn [SF2Prim].
  assert (SFwhole (Prim2SF (Z.ldexp (of_uint63 (Uint63.of_Z (Z.pos m))) e))
          = true) as H.
  { rewrite Z_ldexp_spec, of_uint63_spec.
    by apply SFldexp_whole, binary_normalize_whole. }
  destruct s; [|done]. by rewrite FloatAxioms.opp_spec, SFopp_whole.
Qed.

Lemma rint_whole x : whole (Np.rint x) = true.
Proof.
  unfold Np.rint.
  destruct (Prim2SF x) as [s|s| |s m e] eqn:E; cbn [Np.SFrint];
    try (rewrite <- E, SF2Prim_Prim2SF; unfold whole; by rewrite E).
  destruct (0 <=? e) eqn:He.
  - apply SF2Prim_whole. lia.
  - destruct (Np.round_half_even _ _);
      [unfold whole; by rewrite Prim2SF_SF2Prim
      |by apply SF2Prim_whole
      |unfold whole; by rewrite Prim2SF_SF2Prim].
Qed.

End Whole.

(** ** What a call leaves untouched *)

Section Frame.

Import Mem.

Implicit Types (h old : gmap nat (list float)) (a y : array).

Lemma keeps_ret {A : Type} old (r : A) (Q : A -> Prop) :
  Q r -> keeps old (mret r) Q.
Proof. intros HQ h Hh. split; [done|]. by intros ? [= <-]. Qed.

Lemma keeps_bind {A B : Type} old (m : M A) (k : A -> M B) Q R :
  keeps old m Q -> (forall r, Q r -> keeps old (k r) R) ->
  keeps old (m ≫= k) R.
Proof.
  intros Hm Hk h Hh. unfold mbind, mem_bind, bind.
  destruct (Hm h Hh) as [H1 H2].
  destruct (m h) as [[r|e] h']; simpl in *.
  - apply Hk; [by apply H2|done].
  - split; [done|]. by intros.
Qed.

Lemma keeps_weaken {A : Type} old (m : M A) (Q R : A -> Prop) :
  keeps old m Q -> (forall r, Q r -> R r) -> keeps old m R.
Proof.
  intros Hm HQR h Hh. destruct (Hm h Hh) as [H1 H2]. split; [done|].
  intros r Hr. by apply HQR, H2.
Qed.

Lemma keeps_lift {A : Type} old (r : result A) :
  keeps old (lift r) (fun _ => True).
Proof. by intros h Hh. Qed.

Lemma keeps_get old a : keeps old (get a) (fun _ => True).
Proof. by intros h Hh. Qed.

Lemma keeps_alloc old (xs : list float) : keeps old (alloc xs) (own_buffer old).
Proof.
  intros h Hh. unfold alloc. simpl.
  pose proof (is_fresh (dom h)) as Hfresh.
  assert (fresh (dom h) ∉ dom old) as Hnew.
  { intros Hin. apply Hfresh. by apply (subseteq_dom old h Hh). }
  split.
  - apply insert_subseteq_r; [by apply not_elem_of_dom|done].
  - by intros r [= <-].
Qed.

Lemma alter_own old h (f : list float -> list float) (l : nat) :
  l ∉ dom old -> old ⊆ h -> old ⊆ alter f l h.
Proof.
  intros Hl Hh. apply map_subseteq_spec. intros i xs Hi.
  rewrite lookup_alter_ne.
  - by apply (lookup_weaken old h).
  - intros ->. apply Hl. by apply elem_of_dom.
Qed.

Lemma keeps_setitem old y (i : nat) (v : float) :
  own_buffer old y -> keeps old (setitem y i v) (fun _ => True).
Proof.
  intros Hy h Hh. unfold setitem.
  destruct (decide (i < len y)%nat); simpl; [|done].
  split; [|done]. by apply alter_own.
Qed.

Lemma keeps_zero_where old y (mask : float -> bool) :
  own_buffer old y -> keeps old (zero_where mask y) (fun _ => True).
Proof.
  intros Hy h Hh. unfold zero_where. simpl. split; [|done]. by apply alter_own.
Qed.

(** A numpy operation that reads, computes and allocates. *)
Lemma keeps_computed old a (f : list float -> result (list float)) :
  keeps old (xs ← get a; ys ← lift (f xs); alloc ys) (own_buffer old).
Proof.
  eapply keeps_bind; [apply keeps_get|]. intros xs _.
  eapply keeps_bind; [apply keeps_lift|]. intros ys _. apply keeps_alloc.
Qed.

Lemma keeps_map old a (f : list float -> list float) :
  keeps old (xs ← get a; alloc (f xs)) (own_buffer old).
Proof.
  eapply keeps_bind; [apply keeps_get|]. intros xs _. apply keeps_alloc.
Qed.

Lemma keeps_read {A : Type} old a (f : list float -> M A) :
  (forall xs, keeps old (f xs) (fun _ => True)) ->
  keeps old (xs ← get a; f xs) (fun _ => True).
Proof. intros Hf. eapply keeps_bind; [apply keeps_get|]. by intros xs _. Qed.

Lemma keeps_zeros old (n : Z) : keeps old (NpMem.zeros n) (own_buffer old).
Proof.
  unfold NpMem.zeros. eapply keeps_bind; [apply keeps_lift|].
  intros xs _. apply keeps_alloc.
Qed.

Lemma keeps_mul old a b : keeps old (NpMem.mul a b) (own_buffer old).
Proof.
  unfold NpMem.mul. eapply keeps_bind; [apply keeps_get|]. intros xs _.
  eapply keeps_bind; [apply keeps_get|]. intros ys _.
  eapply keeps_bind; [apply keeps_lift|]. intros zs _. apply keeps_alloc.
Qed.

Lemma keeps_sum old a : keeps old (NpMem.sum a) (fun _ => True).
Proof. apply keeps_read. intros xs. by apply keeps_ret. Qed.

Lemma keeps_for_each old (js : list nat) (body : nat -> M unit) :
  (forall j, keeps old (body j) (fun _ => True)) ->
  keeps old (NpMem.for_each js body) (fun _ => True).
Proof.
  intros Hbody. induction js as [|j js IH]; simpl; [by apply keeps_ret|].
  eapply keeps_bind; [apply Hbody|]. by intros _ _.
Qed.

Section FrameOptimizers.

Variable ppf : float -> float.
Variable fare_transformation_mem :
  array -> array -> option float -> M (array * array).

(** The loop writes into [y] only. *)
Lemma keeps_EMSRb_body old fares demands sigmas y (j : nat) :
  own_buffer old y ->
  keeps old (EMSRb_body_mem ppf fares demands sigmas y j) (fun _ => True).
Proof.
  intros Hy. unfold EMSRb_body_mem.
  eapply keeps_bind; [apply keeps_sum|]. intros S_j _.
  eapply keeps_bind; [apply keeps_mul|]. intros weighted _.
  eapply keeps_bind; [apply keeps_sum|]. intros total _.
  eapply keeps_bind; [apply keeps_sum|]. intros demand _.
  eapply keeps_bind; [apply keeps_read; intros xs; apply keeps_lift|].
  intros p_j_plus_1 _.
  eapply keeps_bind; [apply keeps_map|]. intros squares _.
  eapply keeps_bind; [apply keeps_sum|]. intros variance _.
  by apply keeps_setitem.
Qed.

Lemma keeps_cumsum_but_last old demands :
  keeps old (c ← NpMem.cumsum demands; mret (but_last c)) (own_buffer old).
Proof.
  eapply keeps_bind; [apply keeps_map|]. intros c Hc. by apply keeps_ret.
Qed.

(** [EMSRb] returns an array with a buffer of its own. *)
Lemma keeps_EMSRb old fares demands (sigmas : option array) :
  keeps old (EMSRb_mem ppf fares demands sigmas) (own_buffer old).
Proof.
  unfold EMSRb_mem.
  eapply keeps_bind; [apply keeps_zeros|]. intros y Hy.
  eapply keeps_bind with (Q := own_buffer old); [|intros y' _; eapply keeps_bind;
                            [apply keeps_map|intros r _; apply keeps_map]].
  destruct sigmas as [s|]; [|apply keeps_cumsum_but_last].
  eapply keeps_bind; [apply keeps_read; intros xs; by apply keeps_ret|].
  intros [] _; [apply keeps_cumsum_but_last|].
  eapply keeps_bind.
  { apply keeps_for_each. intros j. by apply keeps_EMSRb_body. }
  intros _ _.
  eapply keeps_bind; [by apply keeps_zero_where|]. intros _ _.
  eapply keeps_bind; [by apply keeps_zero_where|]. intros _ _.
  by apply keeps_ret.
Qed.

Lemma keeps_gather old a (idx : list nat) :
  keeps old (NpMem.gather a idx) (fun _ => True).
Proof.
  eapply keeps_weaken; [apply (keeps_computed old a (fun xs => Np.gather xs idx))|].
  done.
Qed.

(** [EMSRb_MR] keeps what the fare transformation keeps. *)
Lemma keeps_EMSRb_MR old fares demands (sigmas : option array) cap :
  (forall f d c h, h ⊆ (fare_transformation_mem f d c h).2) ->
  keeps old (EMSRb_MR_mem ppf fare_transformation_mem fares demands sigmas cap)
    (fun _ => True).
Proof.
  intros Hft. unfold EMSRb_MR_mem.
  eapply keeps_bind with (Q := fun _ => True).
  { destruct sigmas as [s|]; [by apply keeps_ret|].
    eapply keeps_weaken; [apply keeps_alloc|done]. }
  intros sigmas' _.
  eapply keeps_bind with (Q := fun _ => True).
  { intros h Hh. split; [|done]. etrans; [exact Hh|apply Hft]. }
  intros [adjusted_fares adjusted_demand] _.
  eapply keeps_bind; [apply keeps_read; intros xs; by apply keeps_ret|].
  intros mask _.
  eapply keeps_bind; [apply keeps_gather|]. intros selected _.
  destruct (negb (len selected =? 0)%nat).
  - eapply keeps_bind; [apply keeps_gather|]. intros fares_ _.
    eapply keeps_bind; [apply keeps_gather|]. intros demands_ _.
    eapply keeps_bind; [apply keeps_gather|]. intros sigmas_ _.
    eapply keeps_bind; [apply keeps_EMSRb|]. intros levels _.
    eapply keeps_weaken; [apply keeps_map|done].
  - eapply keeps_weaken; [apply keeps_alloc|done].
Qed.

End FrameOptimizers.

Lemma contents_kept h h' a :
  h ⊆ h' -> buf a ∈ dom h -> contents a h' = contents a h.
Proof.
  intros Hsub [xs Hxs]%elem_of_dom. unfold contents.
  by rewrite Hxs, (lookup_weaken h h' _ _ Hxs Hsub).
Qed.

End Frame.

(** ** The store version computes what the value version computes *)

Section Refinement.

Import Mem.

Implicit Types (h : gmap nat (list float)) (a y : array) (xs ys : list float).

Lemma agree_off_refl l h : agree_off l h h.
Proof. by intros a xs _ H. Qed.

Lemma agree_off_trans l h1 h2 h3 :
  agree_off l h1 h2 -> agree_off l h2 h3 -> agree_off l h1 h3.
Proof. intros H12 H23 a xs Ha H. by apply H23, H12. Qed.

Lemma shows_alloc h a xs ys : shows h a xs -> shows (<[fresh (dom h) := ys]> h) a xs.
Proof.
  intros (Hc & Hl & Hd).
  assert (fresh (dom h) <> buf a) as Hne.
  { intros E. apply (is_fresh (dom h)). by rewrite E. }
  split_and!; [|done|].
  - unfold contents. by rewrite lookup_insert_ne.
  - rewrite dom_insert. set_solver.
Qed.

Lemma agree_off_alloc l h ys : agree_off l h (<[fresh (dom h) := ys]> h).
Proof. intros a xs _ H. by apply shows_alloc. Qed.

Lemma shows_new h ys :
  shows (<[fresh (dom h) := ys]> h) (Array (fresh (dom h)) 0 (length ys)) ys.
Proof.
  split_and!; [|done|].
  - unfold contents. simpl. rewrite lookup_insert_eq. simpl.
    by rewrite take_ge.
  - rewrite dom_insert. set_solver.
Qed.

Lemma agree_off_alter l h (f : list float -> list float) :
  agree_off l h (alter f l h).
Proof.
  intros a xs Hne (Hc & Hl & Hd). split_and!; [|done|].
  - unfold contents. by rewrite lookup_alter_ne.
  - by rewrite dom_alter.
Qed.

Lemma lookup_alloc_other h (l : nat) ys xs :
  h !! l = Some xs -> <[fresh (dom h) := ys]> h !! l = Some xs.
Proof.
  intros Hl. rewrite lookup_insert_ne; [done|].
  intros E. apply (is_fresh (dom h)). rewrite E. by apply elem_of_dom.
Qed.

Lemma contents_upto h a xs (k : nat) :
  shows h a xs -> contents (upto k a) h = take k xs.
Proof.
  intros (Hc & Hl & _). unfold contents in *. simpl. subst xs.
  by rewrite take_take.
Qed.

Lemma contents_but_last h a xs :
  shows h a xs -> contents (but_last a) h = Np.but_last xs.
Proof.
  intros (Hc & Hl & _). unfold Np.but_last. rewrite <- Hl.
  unfold contents in *. simpl. subst xs. rewrite take_take.
  f_equal. lia.
Qed.

Lemma bind_ok {A B : Type} (m : M A) (k : A -> M B) h r h' :
  m h = (Ok r, h') -> (m ≫= k) h = k r h'.
Proof. intros H. unfold mbind, mem_bind, bind. by rewrite H. Qed.

Lemma bind_raise {A B : Type} (m : M A) (k : A -> M B) h e h' :
  m h = (Raise e, h') -> (m ≫= k) h = (Raise e, h').
Proof. intros H. unfold mbind, mem_bind, bind. by rewrite H. Qed.

Section Run.

Variable ppf : float -> float.

Lemma sum_run h a xs :
  contents a h = xs -> NpMem.sum a h = (Ok (Np.sum xs), h).
Proof. intros <-. done. Qed.

Lemma mul_run h a b xs ys :
  contents a h = xs -> contents b h = ys ->
  NpMem.mul a b h
  = match Np.mul xs ys with
    | Ok zs => alloc zs h
    | Raise e => (Raise e, h)
    end.
Proof.
  intros <- <-. unfold NpMem.mul, mbind, mem_bind, bind, get, lift.
  by destruct (Np.mul _ _).
Qed.

Lemma getitem_run h a xs (j : nat) :
  contents a h = xs -> NpMem.getitem a j h = (Np.getitem xs j, h).
Proof.
  intros <-. unfold NpMem.getitem, mbind, mem_bind, bind, get, lift.
  by destruct (Np.getitem _ _).
Qed.

Lemma map_run h a xs (f : list float -> list float) :
  contents a h = xs -> (zs ← get a; alloc (f zs)) h = alloc (f xs) h.
Proof. intros <-. done. Qed.

(** One turn of the loop: the store version writes into the buffer of [y]
    what the value version returns. *)
Lemma EMSRb_body_mem_run h fares demands sigmas y F D S Y (j : nat) :
  shows h fares F -> shows h demands D -> shows h sigmas S ->
  h !! buf y = Some Y -> off y = 0%nat -> len y = length Y ->
  exists h',
    agree_off (buf y) h h'
    /\ match EMSRb_body ppf F D S j Y with
       | Ok Y' =>
           EMSRb_body_mem ppf fares demands sigmas y j h = (Ok (), h')
           /\ h' !! buf y = Some Y' /\ length Y' = length Y
       | Raise e =>
           EMSRb_body_mem ppf fares demands sigmas y j h = (Raise e, h')
       end.
Proof.
  intros Hf Hd Hs Hy Hoff Hlen. unfold EMSRb_body_mem, EMSRb_body, Np.upto.
  rewrite (bind_ok _ _ h _ h (sum_run h _ _ (contents_upto h demands D j Hd))).
  pose proof (mul_run h _ _ _ _ (contents_upto h demands D j Hd)
                (contents_upto h fares F j Hf)) as Hmul.
  destruct (Np.mul (take j D) (take j F)) as [zs|e] eqn:Emul; py_step.
  2:{ exists h. split; [apply agree_off_refl|].
      by rewrite (bind_raise _ _ h e h Hmul). }
  set (h1 := <[fresh (dom h) := zs]> h) in *.
  rewrite (bind_ok _ _ h _ h1 Hmul).
  pose proof (shows_new h zs) as (Hw & _ & _). fold h1 in Hw.
  rewrite (bind_ok _ _ h1 _ h1 (sum_run h1 _ _ Hw)).
  pose proof (shows_alloc h _ _ zs Hd) as Hd1.
  pose proof (shows_alloc h _ _ zs Hf) as Hf1.
  pose proof (shows_alloc h _ _ zs Hs) as Hs1. fold h1 in Hd1, Hf1, Hs1.
  rewrite (bind_ok _ _ h1 _ h1 (sum_run h1 _ _ (contents_upto h1 demands D j Hd1))).
  pose proof (getitem_run h1 fares F j (proj1 Hf1)) as Hget.
  destruct (Np.getitem F j) as [p|e] eqn:Ep; py_step.
  2:{ exists h1. split; [apply agree_off_alloc|].
      by rewrite (bind_raise _ _ h1 e h1 Hget). }
  rewrite (bind_ok _ _ h1 _ h1 Hget).
  set (sq := Np.square (take j S)).
  set (h2 := <[fresh (dom h1) := sq]> h1).
  assert (NpMem.square (upto j sigmas) h1
          = (Ok (Array (fresh (dom h1)) 0 (length sq)), h2)) as Hsq.
  { unfold NpMem.square.
    by rewrite (map_run h1 _ _ Np.square (contents_upto h1 sigmas S j Hs1)). }
  rewrite (bind_ok _ _ h1 _ h2 Hsq).
  pose proof (shows_new h1 sq) as (Hq & _ & _). fold h2 in Hq.
  rewrite (bind_ok _ _ h2 _ h2 (sum_run h2 _ _ Hq)).
  assert (h2 !! buf y = Some Y) as Hy2 by (by do 2 apply lookup_alloc_other).
  assert (agree_off (buf y) h h2) as Hag.
  { eapply agree_off_trans; apply agree_off_alloc. }
  unfold setitem, Np.setitem, Np.square. rewrite Hlen, Hoff.
  destruct (decide (j - 1 < length Y)%nat).
  - eexists. split; [eapply agree_off_trans; [exact Hag|apply agree_off_alter]|].
    split; [done|]. split; [|by rewrite length_insert].
    by rewrite lookup_alter_eq, Hy2.
  - by exists h2.
Qed.

Lemma for_each_mem_run fares demands sigmas y F D S (js : list nat) h Y :
  shows h fares F -> shows h demands D -> shows h sigmas S ->
  buf fares <> buf y -> buf demands <> buf y -> buf sigmas <> buf y ->
  h !! buf y = Some Y -> off y = 0%nat -> len y = length Y ->
  exists h',
    agree_off (buf y) h h'
    /\ match Py.for_each js (EMSRb_body ppf F D S) Y with
       | Ok Y' =>
           NpMem.for_each js (EMSRb_body_mem ppf fares demands sigmas y) h
           = (Ok (), h')
           /\ h' !! buf y = Some Y' /\ length Y' = length Y
       | Raise e =>
           NpMem.for_each js (EMSRb_body_mem ppf fares demands sigmas y) h
           = (Raise e, h')
       end.
Proof.
  intros Hf Hd Hs Hfy Hdy Hsy. revert h Y Hf Hd Hs.
  induction js as [|j js IH]; intros h Y Hf Hd Hs Hy Hoff Hlen; simpl.
  { exists h. split; [apply agree_off_refl|]. done. }
  destruct (EMSRb_body_mem_run h fares demands sigmas y F D S Y j)
    as (h1 & Hag1 & Hstep); try done.
  destruct (EMSRb_body ppf F D S j Y) as [Y1|e]; cbn [Py.bind].
  - destruct Hstep as (Hrun & Hy1 & Hlen1).
    destruct (IH h1 Y1) as (h2 & Hag2 & Hrest);
      [by apply Hag1..|done|done|lia|].
    exists h2. split; [by eapply agree_off_trans|].
    rewrite (bind_ok _ _ h _ h1 Hrun).
    destruct (Py.for_each js _ Y1); [|done].
    destruct Hrest as (? & ? & ?). split_and!; [done|done|lia].
  - exists h1. split; [done|]. by rewrite (bind_raise _ _ h e h1 Hstep).
Qed.

Lemma alloc_run h xs :
  alloc xs h = (Ok (Array (fresh (dom h)) 0 (length xs)), <[fresh (dom h) := xs]> h).
Proof. done. Qed.

(** The last two lines of [EMSRb]: round, and put a zero in front. *)
Lemma round_hstack_run h y ys :
  shows h y ys ->
  exists r h',
    (r0 ← NpMem.round y; NpMem.hstack0 r0) h = (Ok r, h')
    /\ shows h' r (Np.hstack0 (Np.round ys)) /\ h ⊆ h'.
Proof.
  intros (Hy & _ & _).
  set (h1 := <[fresh (dom h) := Np.round ys]> h).
  assert (NpMem.round y h
          = (Ok (Array (fresh (dom h)) 0 (length (Np.round ys))), h1)) as H1.
  { unfold NpMem.round. by rewrite (map_run h y ys Np.round Hy). }
  pose proof (shows_new h (Np.round ys)) as Hr. fold h1 in Hr.
  eexists _, _. rewrite (bind_ok _ _ h _ h1 H1).
  unfold NpMem.hstack0. rewrite (map_run h1 _ _ Np.hstack0 (proj1 Hr)).
  rewrite alloc_run. split; [done|]. split; [apply shows_new|].
  etrans; apply insert_subseteq, not_elem_of_dom, is_fresh.
Qed.

Lemma cumsum_but_last_run h demands D :
  shows h demands D ->
  exists c h',
    (c0 ← NpMem.cumsum demands; mret (but_last c0)) h = (Ok c, h')
    /\ shows h' c (Np.but_last (Np.cumsum D)) /\ h ⊆ h'.
Proof.
  intros (Hd & _ & _).
  set (h1 := <[fresh (dom h) := Np.cumsum D]> h).
  assert (NpMem.cumsum demands h
          = (Ok (Array (fresh (dom h)) 0 (length (Np.cumsum D))), h1)) as H1.
  { unfold NpMem.cumsum. by rewrite (map_run h demands D Np.cumsum Hd). }
  pose proof (shows_new h (Np.cumsum D)) as Hc. fold h1 in Hc.
  eexists _, _. rewrite (bind_ok _ _ h _ h1 H1).
  split; [done|]. split.
  - split_and!.
    + by apply contents_but_last.
    + simpl. by rewrite length_but_last.
    + by destruct Hc as (_ & _ & ?).
  - apply insert_subseteq, not_elem_of_dom, is_fresh.
Qed.

Lemma zero_where_run h y Y (mask : float -> bool) :
  h !! buf y = Some Y -> off y = 0%nat -> len y = length Y ->
  exists h',
    zero_where mask y h = (Ok (), h')
    /\ h' !! buf y = Some (Np.zero_where mask Y)
    /\ agree_off (buf y) h h'.
Proof.
  intros Hy Hoff Hlen. unfold zero_where. eexists. split; [done|].
  split; [|apply agree_off_alter].
  rewrite lookup_alter_eq, Hy, Hoff, Hlen. simpl.
  by rewrite drop_0, take_ge, drop_all, app_nil_r.
Qed.

Lemma shows_whole h y Y :
  h !! buf y = Some Y -> off y = 0%nat -> len y = length Y -> shows h y Y.
Proof.
  intros Hy Hoff Hlen. split_and!; [|done|by apply elem_of_dom].
  unfold contents. rewrite Hy, Hoff, Hlen. simpl. by rewrite take_ge.
Qed.

(** The store version of [EMSRb] returns an array showing what the value
    version returns, and raises what it raises. *)
Lemma EMSRb_mem_run h fares demands (sigmas : option array) F D
    (S : option (list float)) :
  shows h fares F -> shows h demands D ->
  match sigmas, S with
  | Some s, Some xs => shows h s xs
  | None, None => True
  | _, _ => False
  end ->
  match EMSRb_mem ppf fares demands sigmas h with
  | (Ok r, h') => exists out, EMSRb ppf F D S = Ok out /\ shows h' r out
  | (Raise e, _) => EMSRb ppf F D S = Raise e
  end.
Proof.
  intros Hf Hd Hs. unfold EMSRb_mem, EMSRb.
  pose proof Hf as (HcF & HlF & HdF).
  rewrite HlF. unfold NpMem.zeros.
  destruct (Np.zeros (Z.of_nat (length F) - 1)) as [zs|e] eqn:Ez; py_step.
  2:{ by rewrite (bind_raise _ _ h e h). }
  set (h1 := <[fresh (dom h) := zs]> h).
  set (y := Array (fresh (dom h)) 0 (length zs)).
  rewrite (bind_ok _ _ h y h1) by done.
  pose proof (shows_alloc h _ _ zs Hf) as Hf1.
  pose proof (shows_alloc h _ _ zs Hd) as Hd1. fold h1 in Hf1, Hd1.
  assert (exists mid,
    mid = match S with
          | Some s =>
              if Np.all_eq_zero s then Ok (Np.but_last (Np.cumsum D))
              else EMSRb_loop ppf F D s zs ≫= fun levels => Ok (EMSRb_clamp levels)
          | None => Ok (Np.but_last (Np.cumsum D))
          end) as [mid Hmid] by (by eexists).
  rewrite <- Hmid.
  match goal with |- context [mbind ?k (match sigmas with Some _ => _ | None => _ end)] =>
    set (rest := k); set (middle := match sigmas with Some s => _ | None => _ end)
  end.
  assert (match middle h1 with
          | (Ok y', h2) => exists ys, mid = Ok ys /\ shows h2 y' ys
          | (Raise e, _) => mid = Raise e
          end) as Hmiddle.
  { subst middle. destruct sigmas as [s|], S as [xs|]; try done.
    - pose proof (shows_alloc h _ _ zs Hs) as Hs1. fold h1 in Hs1.
      assert (NpMem.all_eq_zero s h1 = (Ok (Np.all_eq_zero xs), h1)) as Hz.
      { unfold NpMem.all_eq_zero. destruct Hs1 as (<- & _). done. }
      rewrite (bind_ok _ _ h1 _ h1 Hz).
      destruct (Np.all_eq_zero xs).
      + destruct (cumsum_but_last_run h1 demands D Hd1) as (c & h2 & -> & Hc & _).
        eauto.
      + assert (fresh (dom h) ∉ dom h) as Hfresh by apply is_fresh.
        destruct (for_each_mem_run fares demands s y F D xs
                    (Py.range 1 (len fares)) h1 zs)
          as (h2 & Hag & Hloop); try done.
        { simpl. intros E. apply Hfresh. rewrite <- E. by destruct Hf as (_ & _ & ?). }
        { simpl. intros E. apply Hfresh. rewrite <- E. by destruct Hd as (_ & _ & ?). }
        { simpl. intros E. apply Hfresh. rewrite <- E. by destruct Hs as (_ & _ & ?). }
        { simpl. subst h1. by rewrite lookup_insert_eq. }
        rewrite HlF in Hloop. unfold EMSRb_loop in Hmid.
        destruct (Py.for_each (Py.range 1 (length F)) (EMSRb_body ppf F D xs) zs)
          as [Y'|e] eqn:Eloop.
        2:{ by rewrite (bind_raise _ _ h1 e h2 Hloop). }
        destruct Hloop as (Hrun & Hy' & Hlen').
        rewrite (bind_ok _ _ h1 _ h2 Hrun).
        destruct (zero_where_run h2 y Y' Np.negative) as (h3 & Hz1 & Hy3 & _);
          [done|done|by rewrite Hlen'|].
        rewrite (bind_ok _ _ h2 _ h3 Hz1).
        destruct (zero_where_run h3 y (Np.zero_where Np.negative Y') is_nan)
          as (h4 & Hz2 & Hy4 & _);
          [done|done|unfold Np.zero_where; by rewrite length_map, Hlen'|].
        rewrite (bind_ok _ _ h3 _ h4 Hz2).
        exists (EMSRb_clamp Y'). split; [by rewrite Hmid|].
        apply shows_whole; [done|done|].
        unfold EMSRb_clamp, Np.zero_where. by rewrite !length_map, Hlen'.
    - destruct (cumsum_but_last_run h1 demands D Hd1) as (c & h2 & -> & Hc & _).
      eauto. }
  unfold mbind at 1, mem_bind at 1, bind at 1.
  destruct (middle h1) as [[y'|e] h2].
  - destruct Hmiddle as (ys & -> & Hys). py_step.
    destruct (round_hstack_run h2 y' ys Hys) as (r & h3 & Hrun & Hr & _).
    subst rest. cbv beta. rewrite Hrun. eauto.
  - rewrite Hmiddle. done.
Qed.

Lemma shows_subseteq h h' a xs : h ⊆ h' -> shows h a xs -> shows h' a xs.
Proof.
  intros Hsub (Hc & Hl & Hd). split_and!; [|done|].
  - by rewrite (contents_kept h h').
  - by apply (subseteq_dom h h').
Qed.

Lemma gather_run h a xs (idx : list nat) :
  contents a h = xs ->
  NpMem.gather a idx h
  = match Np.gather xs idx with
    | Ok ys => alloc ys h
    | Raise e => (Raise e, h)
    end.
Proof.
  intros <-. unfold NpMem.gather, mbind, mem_bind, bind, get, lift.
  by destruct (Np.gather _ _).
Qed.

Variable fare_transformation :
  list float -> list float -> option float -> result (list float * list float).
Variable fare_transformation_mem :
  array -> array -> option float -> M (array * array).

Lemma EMSRb_MR_mem_run h fares demands (sigmas : option array) cap F D
    (S : option (list float)) :
  transformation_agrees fare_transformation fare_transformation_mem ->
  shows h fares F -> shows h demands D ->
  match sigmas, S with
  | Some s, Some xs => shows h s xs
  | None, None => True
  | _, _ => False
  end ->
  match EMSRb_MR_mem ppf fare_transformation_mem fares demands sigmas cap h with
  | (Ok r, h') =>
      exists out, EMSRb_MR ppf fare_transformation F D S cap = Ok out
                  /\ shows h' r out
  | (Raise e, _) => EMSRb_MR ppf fare_transformation F D S cap = Raise e
  end.
Proof.
  intros Hft Hf Hd Hs. unfold EMSRb_MR_mem, EMSRb_MR.
  pose proof Hf as (_ & HlF & _).
  (* the sigmas *)
  assert (exists s1 h1,
            match sigmas with
            | None => NpMem.zeros_like fares
            | Some s => mret s
            end h = (Ok s1, h1)
            /\ shows h1 s1 match S with
                           | None => Np.zeros_like F
                           | Some s => s
                           end
            /\ h ⊆ h1) as (s1 & h1 & Hrun1 & Hs1 & Hsub1).
  { destruct sigmas as [s|], S as [xs|]; try done.
    - by exists s, h.
    - eexists _, _. unfold NpMem.zeros_like. rewrite alloc_run.
      split; [done|]. rewrite HlF. split.
      + pose proof (shows_new h (replicate (length F) 0%float)) as Hn.
        by rewrite length_replicate in Hn |- *.
      + apply insert_subseteq, not_elem_of_dom, is_fresh. }
  rewrite (bind_ok _ _ h s1 h1 Hrun1). clear Hrun1.
  set (S1 := match S with None => Np.zeros_like F | Some s => s end) in *.
  (* the fare transformation *)
  specialize (Hft h1 fares demands cap F D
                (shows_subseteq h h1 _ _ Hsub1 Hf) (shows_subseteq h h1 _ _ Hsub1 Hd)).
  unfold mbind at 1, mem_bind at 1, bind at 1.
  destruct (fare_transformation_mem fares demands cap h1) as [[[af ad]|e] h2].
  2:{ by rewrite Hft. }
  destruct Hft as (AF & AD & -> & Haf & Had & Hsub2). py_step.
  pose proof (shows_subseteq h1 h2 _ _ Hsub2 Hs1) as Hs2.
  assert (NpMem.not_nan af h2 = (Ok (Np.not_nan AF), h2)) as Hmask.
  { unfold NpMem.not_nan. by destruct Haf as (<- & _). }
  rewrite (bind_ok _ _ h2 _ h2 Hmask).
  set (idx := Np.where_ (Np.not_nan AF)).
  (* the four gathers *)
  pose proof (gather_run h2 af AF idx (proj1 Haf)) as Hg0.
  destruct (Np.gather AF idx) as [sel|e] eqn:Esel; py_step.
  2:{ by rewrite (bind_raise _ _ h2 e h2 Hg0). }
  rewrite alloc_run in Hg0. rewrite (bind_ok _ _ h2 _ _ Hg0).
  set (h3 := <[fresh (dom h2) := sel]> h2) in *. cbn [len].
  destruct (negb (length sel =? 0)%nat).
  2:{ unfold NpMem.zeros_like. rewrite alloc_run, HlF.
      eexists. split; [done|].
      pose proof (shows_new h3 (replicate (length F) 0%float)) as Hn.
      by rewrite length_replicate in Hn |- *. }
  pose proof (shows_alloc h2 _ _ sel Haf) as Haf3.
  pose proof (shows_alloc h2 _ _ sel Had) as Had3.
  pose proof (shows_alloc h2 _ _ sel Hs2) as Hs3. fold h3 in Haf3, Had3, Hs3.
  pose proof (gather_run h3 af AF idx (proj1 Haf3)) as Hg1.
  rewrite Esel, alloc_run in Hg1. rewrite (bind_ok _ _ h3 _ _ Hg1).
  set (h4 := <[fresh (dom h3) := sel]> h3) in *.
  pose proof (shows_new h3 sel) as Hfares_. fold h4 in Hfares_.
  pose proof (shows_alloc h3 _ _ sel Had3) as Had4.
  pose proof (shows_alloc h3 _ _ sel Hs3) as Hs4. fold h4 in Had4, Hs4.
  pose proof (gather_run h4 ad AD idx (proj1 Had4)) as Hg2.
  destruct (Np.gather AD idx) as [dsel|e] eqn:Edsel; py_step.
  2:{ by rewrite (bind_raise _ _ h4 e h4 Hg2). }
  rewrite alloc_run in Hg2. rewrite (bind_ok _ _ h4 _ _ Hg2).
  set (h5 := <[fresh (dom h4) := dsel]> h4) in *.
  pose proof (shows_new h4 dsel) as Hdemands_. fold h5 in Hdemands_.
  pose proof (shows_alloc h4 _ _ dsel Hfares_) as Hfares5.
  pose proof (shows_alloc h4 _ _ dsel Hs4) as Hs5. fold h5 in Hfares5, Hs5.
  pose proof (gather_run h5 s1 S1 idx (proj1 Hs5)) as Hg3.
  destruct (Np.gather S1 idx) as [ssel|e] eqn:Essel; py_step.
  2:{ by rewrite (bind_raise _ _ h5 e h5 Hg3). }
  rewrite alloc_run in Hg3. rewrite (bind_ok _ _ h5 _ _ Hg3).
  set (h6 := <[fresh (dom h5) := ssel]> h5) in *.
  pose proof (shows_new h5 ssel) as Hsigmas_. fold h6 in Hsigmas_.
  pose proof (shows_alloc h5 _ _ ssel Hfares5) as Hfares6.
  pose proof (shows_alloc h5 _ _ ssel Hdemands_) as Hdemands6.
  fold h6 in Hfares6, Hdemands6.
  (* EMSRb on the efficient classes, and the re-expansion *)
  pose proof (EMSRb_mem_run h6 _ _ (Some _) sel dsel (Some ssel)
                Hfares6 Hdemands6 Hsigmas_) as Hinner.
  unfold mbind at 1, mem_bind at 1, bind at 1.
  destruct (EMSRb_mem ppf _ _ _ h6) as [[levels|e] h7].
  2:{ by rewrite Hinner. }
  destruct Hinner as (out & -> & Hlevels). py_step.
  unfold fill_nan_mem.
  rewrite (map_run h7 levels out (fill_nan (len fares) idx) (proj1 Hlevels)).
  rewrite alloc_run, HlF. eexists. split; [done|]. apply shows_new.
Qed.

End Run.

End Refinement.

Lemma sample_ppf_nan p : is_nan p = true -> is_nan (Sample.ppf p) = true.
Proof. intros H. unfold Sample.ppf. by apply mul_nan_r, sub_nan_l. Qed.

(** P5 of the specification. *)
Example EMSRb_P5 :
  EMSRb Sample.ppf Sample.fares Sample.demands None = Ok [0; 10; 30]%float.
Proof. reflexivity. Qed.

(** P9 of the specification. *)
Example fill_nan_P9 : fill_nan 3 [0; 2]%nat [0; 5]%float = [0; 0; 5]%float.
Proof. reflexivity. Qed.

(** * The claims *)

(** C1.  In Gaussian mode (sigmas given and not all zero), on fares and
    demands of one length [N >= 2], the loop of [EMSRb] runs to its end and
    leaves at entry [j-1], for every boundary [j] in [1..N-1], the level
    [S_j + z * sigma_j] before clamping, where
    - [S_j] is a sum of [demands[0:j]]: every one of these demands once,
      put together by additions;
    - [z] is the inverse normal distribution function at
      [1 - fares[j] / p_bar_j], and [p_bar_j] is a sum of the products
      [demands[i] * fares[i]], [i < j], divided by [S_j];
    - [sigma_j] is the square root of a sum of the squares of
      [sigmas[0:j]].
    The three sums are numpy's: for [j < 8] the terms added from left to
    right, for longer prefixes in numpy's order.  [EMSRb] returns these
    levels clamped, rounded, behind a zero. *)
Theorem EMSRb_gaussian_levels (ppf : float -> float)
    (fares demands sigmas : list float) :
  length demands = length fares ->
  (2 <= length fares)%nat ->
  Np.all_eq_zero sigmas = false ->
  exists y,
    EMSRb_loop ppf fares demands sigmas
      (replicate (length fares - 1) 0%float) = Ok y
    /\ EMSRb ppf fares demands (Some sigmas)
       = Ok (0%float :: Np.round (EMSRb_clamp y))
    /\ forall j, (1 <= j <= length fares - 1)%nat ->
         exists S w q : float,
           adds_up (take j demands) S
           /\ adds_up (zip_with PrimFloat.mul (take j demands) (take j fares)) w
           /\ adds_up (map (fun s => s * s)%float (take j sigmas)) q
           /\ ((j < 8)%nat ->
               S = foldl PrimFloat.add 0%float (take j demands)
               /\ w = foldl PrimFloat.add 0%float
                        (zip_with PrimFloat.mul (take j demands) (take j fares))
               /\ q = foldl PrimFloat.add 0%float
                        (map (fun s => s * s)%float (take j sigmas)))
           /\ S = S_ demands j
           /\ (w / S)%float = p_bar fares demands j
           /\ sqrt q = sigma_ sigmas j
           /\ y !! (j - 1)%nat
              = Some (S + ppf (1 - nth j fares 0 / (w / S)) * sqrt q)%float.
Proof.
  intros Hlen HN Hs.
  destruct (EMSRb_gaussian ppf fares demands sigmas) as (y & Hrun & _ & Hlev & Hout);
    [done|intros ->; simpl in HN; lia|done|].
  exists y. split; [done|]. split; [done|].
  intros j Hj.
  exists (Np.sum (take j demands)),
    (Np.sum (zip_with PrimFloat.mul (take j demands) (take j fares))),
    (Np.sum (map (fun s => s * s)%float (take j sigmas))).
  split_and!; try apply sum_adds_up; try done.
  - intros Hshort. split_and!; apply sum_short.
    + rewrite length_take. lia.
    + rewrite length_zip_with, !length_take. lia.
    + rewrite length_map, length_take. lia.
  - rewrite Hlev by lia. done.
Qed.

Lemma EMSRb_gaussian_levels_witness :
  exists y,
    EMSRb_loop Sample.ppf Sample.fares Sample.demands Sample.sigmas
      (replicate (length Sample.fares - 1) 0%float) = Ok y
    /\ EMSRb Sample.ppf Sample.fares Sample.demands (Some Sample.sigmas)
       = Ok (0%float :: Np.round (EMSRb_clamp y))
    /\ forall j, (1 <= j <= length Sample.fares - 1)%nat ->
         exists S w q : float,
           adds_up (take j Sample.demands) S
           /\ adds_up (zip_with PrimFloat.mul (take j Sample.demands)
                        (take j Sample.fares)) w
           /\ adds_up (map (fun s => s * s)%float (take j Sample.sigmas)) q
           /\ ((j < 8)%nat ->
               S = foldl PrimFloat.add 0%float (take j Sample.demands)
               /\ w = foldl PrimFloat.add 0%float
                        (zip_with PrimFloat.mul (take j Sample.demands)
                           (take j Sample.fares))
               /\ q = foldl PrimFloat.add 0%float
                        (map (fun s => s * s)%float (take j Sample.sigmas)))
           /\ S = S_ Sample.demands j
           /\ (w / S)%float = p_bar Sample.fares Sample.demands j
           /\ sqrt q = sigma_ Sample.sigmas j
           /\ y !! (j - 1)%nat
              = Some (S + Sample.ppf (1 - nth j Sample.fares 0 / (w / S))
                          * sqrt q)%float.
Proof.
  apply EMSRb_gaussian_levels; [reflexivity|simpl; lia|reflexivity].
Defined.

(** C2.  In deterministic mode (sigmas absent or all zero), on fares and
    demands of one length [N >= 1], [EMSRb] returns a vector of length [N]
    with 0 at index 0 and, behind it, the rounded cumulative sums of the
    demands without the last one: at index [j] in [1..N-1] there is the
    demand of the classes [0..j-1], added up class after class and then
    rounded to the nearest integer, a half going to the even neighbour. *)
Theorem EMSRb_deterministic_cumsum (ppf : float -> float)
    (fares demands : list float) (sigmas : option (list float)) :
  length demands = length fares ->
  (1 <= length fares)%nat ->
  deterministic sigmas = true ->
  exists out,
    EMSRb ppf fares demands sigmas = Ok out
    /\ length out = length fares
    /\ out !! 0%nat = Some 0%float
    /\ drop 1 out = Np.round (Np.but_last (Np.cumsum demands))
    /\ forall j, (1 <= j <= length fares - 1)%nat ->
         exists v,
           out !! j = Some v
           /\ F64.rounded (cumulative_demand demands j) v
           /\ F64.whole v = true
           /\ v = Np.rint (cumulative_demand demands j).
Proof.
  intros Hlen HN Hdet.
  rewrite EMSRb_deterministic by (done || (destruct fares; simpl in *; [lia|done])).
  eexists. split; [done|]. split_and!.
  - simpl. rewrite length_map, length_but_last, length_cumsum. lia.
  - done.
  - done.
  - intros j Hj. exists (Np.rint (cumulative_demand demands j)).
    split_and!; [|apply rint_rounded|apply rint_whole|done].
    destruct j as [|j]; [lia|].
    change ((?x :: ?l) !! S j) with (l !! j).
    unfold Np.but_last.
    change (map Np.rint ?l) with (Np.rint <$> l).
    rewrite list_lookup_fmap, lookup_take_lt
      by (rewrite length_cumsum; lia).
    replace j with (S j - 1)%nat at 1 by lia.
    rewrite lookup_cumsum by lia. done.
Qed.

Lemma EMSRb_deterministic_cumsum_witness :
  exists out,
    EMSRb Sample.ppf Sample.fares Sample.demands None = Ok out
    /\ length out = length Sample.fares
    /\ out !! 0%nat = Some 0%float
    /\ drop 1 out = Np.round (Np.but_last (Np.cumsum Sample.demands))
    /\ forall j, (1 <= j <= length Sample.fares - 1)%nat ->
         exists v,
           out !! j = Some v
           /\ F64.rounded (cumulative_demand Sample.demands j) v
           /\ F64.whole v = true
           /\ v = Np.rint (cumulative_demand Sample.demands j).
Proof.
  apply EMSRb_deterministic_cumsum; [reflexivity|simpl; lia|reflexivity].
Defined.

(** C3.  On a valid input whose adjusted fares hold no NaN, [EMSRb_MR]
    returns what [EMSRb] returns on the adjusted fares, the adjusted
    demands and the sigmas: no index is filled with a zero of its own. *)
Theorem EMSRb_MR_all_efficient (ppf : float -> float)
    (fare_transformation :
       list float -> list float -> option float -> result (list float * list float))
    (fares demands : list float) (sigmas : option (list float))
    (cap : option float) (af ad : list float) :
  valid_shape fares demands sigmas ->
  transforms fare_transformation fares demands cap af ad ->
  Forall (fun x => is_nan x = false) af ->
  exists out,
    EMSRb ppf af ad sigmas = Ok out
    /\ EMSRb_MR ppf fare_transformation fares demands sigmas cap = Ok out.
Proof.
  intros Hv Ht Hall.
  rewrite (EMSRb_MR_all ppf fare_transformation fares demands sigmas cap af ad)
    by done.
  destruct Hv as (_ & HN & _), Ht as (_ & Haf & Had).
  destruct (EMSRb_returns ppf af ad sigmas) as (y & -> & _); [lia| |by eexists].
  intros ->. simpl in Haf. lia.
Qed.

Lemma EMSRb_MR_all_efficient_witness :
  exists out,
    EMSRb Sample.ppf Sample.fares Sample.demands (Some Sample.sigmas) = Ok out
    /\ EMSRb_MR Sample.ppf Sample.keep_all Sample.fares Sample.demands
         (Some Sample.sigmas) None = Ok out.
Proof.
  apply (EMSRb_MR_all_efficient Sample.ppf Sample.keep_all
           Sample.fares Sample.demands (Some Sample.sigmas) None).
  - repeat split; simpl; lia.
  - repeat split.
  - repeat constructor.
Defined.

(** C4.  On a valid input (vectors of one length [N >= 1], the fare
    transformation returning vectors of that length) [EMSRb] and [EMSRb_MR]
    both return a vector whose element 0 is exactly 0. *)
Theorem top_class_unprotected (ppf : float -> float)
    (fare_transformation :
       list float -> list float -> option float -> result (list float * list float))
    (fares demands : list float) (sigmas : option (list float))
    (cap : option float) (af ad : list float) :
  valid_shape fares demands sigmas ->
  transforms fare_transformation fares demands cap af ad ->
  (exists out, EMSRb ppf fares demands sigmas = Ok out
               /\ out !! 0%nat = Some 0%float)
  /\ (exists out,
        EMSRb_MR ppf fare_transformation fares demands sigmas cap = Ok out
        /\ out !! 0%nat = Some 0%float).
Proof.
  intros Hv Ht. split.
  - destruct Hv as (Hlen & HN & _).
    destruct (EMSRb_returns ppf fares demands sigmas) as (y & -> & _);
      [done|intros ->; simpl in HN; lia|].
    by eexists.
  - destruct (efficient af) as [|i0 idx] eqn:Heff.
    + destruct Ht as (Hft & _). destruct Hv as (_ & HN & _).
      rewrite (EMSRb_MR_none ppf fare_transformation fares demands sigmas cap af ad)
        by done.
      eexists. split; [done|]. apply lookup_replicate_2. lia.
    + destruct (EMSRb_MR_first ppf fare_transformation fares demands sigmas cap
                  af ad i0 idx) as (out & -> & _ & Hzero); [done..|].
      exists out. split; [done|]. apply Hzero. lia.
Qed.

Lemma top_class_unprotected_witness :
  (exists out, EMSRb Sample.ppf Sample.fares4 Sample.demands4
                 (Some Sample.sigmas4) = Ok out
               /\ out !! 0%nat = Some 0%float)
  /\ (exists out,
        EMSRb_MR Sample.ppf Sample.keep_odd Sample.fares4 Sample.demands4
          (Some Sample.sigmas4) None = Ok out
        /\ out !! 0%nat = Some 0%float).
Proof.
  apply (top_class_unprotected Sample.ppf Sample.keep_odd Sample.fares4
           Sample.demands4 (Some Sample.sigmas4) None
           (Sample.alternate true Sample.fares4) Sample.demands4).
  - repeat split; simpl; lia.
  - repeat split.
Defined.

(** C5.  In Gaussian mode, on vectors of one length, every level that is
    negative or NaN after the loop is replaced with 0 before the rounding;
    the returned vector holds no NaN and no exception is raised, whatever
    the inverse distribution function returns; and where the
    (non-negative) demands above a boundary [j] sum to zero, which makes
    the weighted average fare [0 / 0], the returned level at [j] is 0,
    provided the inverse distribution function sends NaN to NaN, as
    [norm.ppf] does. *)
Theorem EMSRb_gaussian_clamped (ppf : float -> float)
    (fares demands sigmas : list float) :
  length demands = length fares ->
  (1 <= length fares)%nat ->
  Np.all_eq_zero sigmas = false ->
  exists y out,
    EMSRb_loop ppf fares demands sigmas
      (replicate (length fares - 1) 0%float) = Ok y
    /\ EMSRb ppf fares demands (Some sigmas) = Ok out
    /\ out = 0%float :: Np.round (EMSRb_clamp y)
    /\ (forall k v, y !! k = Some v ->
          EMSRb_clamp y !! k
          = Some (if (v <? 0)%float || is_nan v then 0%float else v))
    /\ Forall (fun v => is_nan v = false) out
    /\ ((forall p, is_nan p = true -> is_nan (ppf p) = true) ->
        forall j, (1 <= j <= length fares - 1)%nat ->
          Forall F64.nonneg (take j demands) ->
          F64.zero (S_ demands j) ->
          out !! j = Some 0%float).
Proof.
  intros Hlen HN Hs.
  destruct (EMSRb_gaussian ppf fares demands sigmas) as (y & Hrun & Hy & Hlev & Hout);
    [done|intros ->; simpl in HN; lia|done|].
  exists y, (0%float :: Np.round (EMSRb_clamp y)). split_and!; try done.
  - intros k v Hk. rewrite EMSRb_clamp_map.
    change (map clamp1 y) with (clamp1 <$> y).
    by rewrite list_lookup_fmap, Hk.
  - constructor; [done|]. unfold Np.round. rewrite EMSRb_clamp_map.
    apply Forall_fmap, Forall_fmap, Forall_forall. intros v _. simpl.
    apply rint_not_nan, nonneg_not_nan, clamp1_nonneg.
  - intros Hppf j Hj Hnn Hz. destruct j as [|j]; [lia|].
    change ((?x :: ?l) !! S j) with (l !! j).
    unfold Np.round. rewrite EMSRb_clamp_map.
    change (map Np.rint ?l) with (Np.rint <$> l).
    change (map clamp1 y) with (clamp1 <$> y).
    rewrite !list_lookup_fmap.
    specialize (Hlev (S j) ltac:(lia)). simpl in Hlev.
    rewrite Nat.sub_0_r in Hlev. rewrite Hlev. simpl.
    rewrite clamp1_nan by (by apply gaussian_level_nan). done.
Qed.

Lemma EMSRb_gaussian_clamped_witness :
  exists out,
    EMSRb Sample.ppf Sample.fares [0; 20; 30]%float (Some Sample.sigmas) = Ok out
    /\ out !! 1%nat = Some 0%float
    /\ Forall (fun v => is_nan v = false) out.
Proof.
  destruct (EMSRb_gaussian_clamped Sample.ppf Sample.fares [0; 20; 30]%float
              Sample.sigmas)
    as (y & out & _ & Hout & _ & _ & Hnan & Hzero);
    [reflexivity|simpl; lia|reflexivity|].
  exists out. split; [exact Hout|]. split; [|exact Hnan].
  apply (Hzero sample_ppf_nan 1%nat);
    [simpl; lia|repeat constructor|reflexivity].
Defined.

(** C6.  When every adjusted fare is NaN, [EMSRb_MR] returns the zero
    vector of length [N] and raises nothing. *)
Theorem EMSRb_MR_all_inefficient (ppf : float -> float)
    (fare_transformation :
       list float -> list float -> option float -> result (list float * list float))
    (fares demands : list float) (sigmas : option (list float))
    (cap : option float) (af ad : list float) :
  fare_transformation fares demands cap = Ok (af, ad) ->
  Forall (fun x => is_nan x = true) af ->
  exists out,
    EMSRb_MR ppf fare_transformation fares demands sigmas cap = Ok out
    /\ length out = length fares
    /\ Forall (fun v => v = 0%float) out.
Proof.
  intros Hft Hall.
  rewrite (EMSRb_MR_none ppf fare_transformation fares demands sigmas cap af ad);
    [|done|by apply efficient_none].
  eexists. split; [done|]. split; [by rewrite length_replicate|].
  by apply Forall_replicate.
Qed.

Lemma EMSRb_MR_all_inefficient_witness :
  exists out,
    EMSRb_MR Sample.ppf Sample.drop_all Sample.fares Sample.demands
      (Some Sample.sigmas) None = Ok out
    /\ length out = length Sample.fares
    /\ Forall (fun v => v = 0%float) out.
Proof.
  apply (EMSRb_MR_all_inefficient Sample.ppf Sample.drop_all Sample.fares
           Sample.demands (Some Sample.sigmas) None
           [nan; nan; nan] Sample.demands).
  - reflexivity.
  - repeat constructor.
Defined.

(** C7, as amended.  [EMSRb] does not check that its vectors have one
    length.  It raises exactly when [fares] is empty or, in Gaussian mode,
    when [fares] has at least three entries and [demands] has at most
    [N - 2] entries and not exactly one (numpy then refuses the product of
    two prefixes).  Every other difference of lengths goes unnoticed: in
    deterministic mode the result is computed from [demands] alone. *)
Theorem EMSRb_checks_no_shape (ppf : float -> float)
    (fares demands : list float) (sigmas : option (list float)) :
  (Py.raises (EMSRb ppf fares demands sigmas) <->
   fares = [] \/
   (deterministic sigmas = false /\ (3 <= length fares)%nat
    /\ (length demands <= length fares - 2)%nat /\ length demands <> 1%nat))
  /\ (fares = [] \/
      EMSRb ppf fares demands None
      = Ok (0%float :: Np.round (Np.but_last (Np.cumsum demands)))).
Proof.
  split; [apply EMSRb_raises_when|].
  destruct fares as [|f fares']; [by left|right].
  by apply EMSRb_deterministic.
Qed.

(** C7 fails as stated: three fares and two demands, and [EMSRb] returns a
    result, with no sigmas and with sigmas. *)
Lemma EMSRb_shape_mismatch_returns :
  length [100; 75; 50]%float = 3%nat
  /\ length [10; 20]%float = 2%nat
  /\ EMSRb Sample.ppf [100; 75; 50]%float [10; 20]%float None
     = Ok [0; 10]%float
  /\ EMSRb Sample.ppf [100; 75; 50]%float [10; 20]%float (Some [3; 4; 12]%float)
     = Ok [0; 8; 29]%float.
Proof. repeat split. Qed.

(** C8.  On a valid input (vectors of one length [N >= 1], demands at
    least zero) every element of the vector [EMSRb] returns is at least
    zero, in deterministic and in Gaussian mode. *)
Theorem EMSRb_nonneg (ppf : float -> float)
    (fares demands : list float) (sigmas : option (list float)) :
  valid_shape fares demands sigmas ->
  Forall F64.nonneg demands ->
  exists out,
    EMSRb ppf fares demands sigmas = Ok out
    /\ Forall (fun v => (0 <=? v)%float = true) out.
Proof.
  intros (Hlen & HN & Hs) Hd.
  assert (fares <> []) as Hne by (intros ->; simpl in HN; lia).
  destruct (deterministic sigmas) eqn:Hdet.
  - rewrite EMSRb_deterministic by done. eexists. split; [done|].
    constructor; [done|].
    apply Forall_fmap, Forall_take.
    eapply Forall_impl; [by apply cumsum_nonneg|].
    intros v Hv. by apply rint_nonneg.
  - destruct sigmas as [s|]; [|done]. simpl in Hdet.
    destruct (EMSRb_gaussian ppf fares demands s) as (y & _ & _ & _ & ->);
      [done..|].
    eexists. split; [done|]. constructor; [done|].
    rewrite EMSRb_clamp_map.
    apply Forall_fmap, Forall_fmap, Forall_forall. intros v _.
    apply rint_nonneg, clamp1_nonneg.
Qed.

Lemma EMSRb_nonneg_witness :
  exists out,
    EMSRb Sample.ppf Sample.fares Sample.demands (Some Sample.sigmas) = Ok out
    /\ Forall (fun v => (0 <=? v)%float = true) out.
Proof.
  apply EMSRb_nonneg.
  - repeat split; simpl; lia.
  - repeat constructor.
Defined.

(** C9.  Neither [EMSRb] nor [EMSRb_MR] writes into an array that exists
    when it is called: whether the call returns or raises, every buffer of
    the store before the call is in the store after it with the same
    values, so every array the caller holds (the arguments among them)
    shows the values it showed before.  What is written is written into
    buffers allocated during the call.  The fare transformation is asked to
    do the same. *)
Theorem inputs_unchanged (ppf : float -> float)
    (fare_transformation_mem :
       Mem.array -> Mem.array -> option float -> Mem.M (Mem.array * Mem.array))
    (fares demands : Mem.array) (sigmas : option Mem.array)
    (cap : option float) (h : gmap nat (list float)) :
  (forall f d c h1, h1 ⊆ (fare_transformation_mem f d c h1).2) ->
  let after_EMSRb := (EMSRb_mem ppf fares demands sigmas h).2 in
  let after_EMSRb_MR :=
    (EMSRb_MR_mem ppf fare_transformation_mem fares demands sigmas cap h).2 in
  (forall l xs, h !! l = Some xs ->
     after_EMSRb !! l = Some xs /\ after_EMSRb_MR !! l = Some xs)
  /\ (forall a, Mem.buf a ∈ dom h ->
        Mem.contents a after_EMSRb = Mem.contents a h
        /\ Mem.contents a after_EMSRb_MR = Mem.contents a h).
Proof.
  intros Hft after_EMSRb after_EMSRb_MR.
  assert (h ⊆ after_EMSRb) as H1.
  { by apply (keeps_EMSRb ppf h fares demands sigmas h). }
  assert (h ⊆ after_EMSRb_MR) as H2.
  { by apply (keeps_EMSRb_MR ppf fare_transformation_mem h fares demands sigmas cap
                Hft h). }
  split.
  - intros l xs Hl. split; by eapply lookup_weaken.
  - intros a Ha. split; by apply contents_kept.
Qed.

Lemma inputs_unchanged_witness :
  (forall l xs, Sample.store4 !! l = Some xs ->
     (EMSRb_mem Sample.ppf Sample.fares4_ref Sample.demands4_ref
        (Some Sample.sigmas4_ref) Sample.store4).2 !! l = Some xs
     /\ (EMSRb_MR_mem Sample.ppf Sample.keep_all_mem Sample.fares4_ref
           Sample.demands4_ref (Some Sample.sigmas4_ref) None
           Sample.store4).2 !! l = Some xs)
  /\ (forall a, Mem.buf a ∈ dom Sample.store4 ->
        Mem.contents a
          (EMSRb_mem Sample.ppf Sample.fares4_ref Sample.demands4_ref
             (Some Sample.sigmas4_ref) Sample.store4).2
        = Mem.contents a Sample.store4
        /\ Mem.contents a
             (EMSRb_MR_mem Sample.ppf Sample.keep_all_mem Sample.fares4_ref
                Sample.demands4_ref (Some Sample.sigmas4_ref) None
                Sample.store4).2
           = Mem.contents a Sample.store4).
Proof.
  apply (inputs_unchanged Sample.ppf Sample.keep_all_mem Sample.fares4_ref
           Sample.demands4_ref (Some Sample.sigmas4_ref) None Sample.store4).
  intros f d c h1. reflexivity.
Defined.

(** C10.  When some class is efficient, the output of [EMSRb_MR] is exactly
    0 at the smallest efficient index [i0]: that class gets the zero
    [EMSRb] puts in front.  Every index below [i0] is inefficient (its
    adjusted fare is NaN) and holds the fill value 0. *)
Theorem EMSRb_MR_first_efficient (ppf : float -> float)
    (fare_transformation :
       list float -> list float -> option float -> result (list float * list float))
    (fares demands : list float) (sigmas : option (list float))
    (cap : option float) (af ad : list float) (i0 : nat) (idx : list nat) :
  valid_shape fares demands sigmas ->
  transforms fare_transformation fares demands cap af ad ->
  efficient af = i0 :: idx ->
  Forall (fun k => i0 < k)%nat idx
  /\ exists out,
       EMSRb_MR ppf fare_transformation fares demands sigmas cap = Ok out
       /\ out !! i0 = Some 0%float
       /\ forall p, (p < i0)%nat ->
            out !! p = Some 0%float
            /\ exists x, af !! p = Some x /\ is_nan x = true.
Proof.
  intros Hv Ht Heff.
  destruct (efficient_first af i0 idx Heff) as (Hi0 & Hgt & Hnan).
  split; [done|].
  destruct (EMSRb_MR_first ppf fare_transformation fares demands sigmas cap
              af ad i0 idx) as (out & -> & _ & Hzero); [done..|].
  exists out. split; [done|]. split; [apply Hzero; lia|].
  intros p Hp. split; [apply Hzero; lia|].
  destruct (lookup_lt_is_Some_2 af p ltac:(lia)) as [x Hx].
  exists x. split; [done|]. by eapply Hnan.
Qed.

Lemma EMSRb_MR_first_efficient_witness :
  Forall (fun k => 1 < k)%nat [3%nat]
  /\ exists out,
       EMSRb_MR Sample.ppf Sample.keep_odd Sample.fares4 Sample.demands4
         (Some Sample.sigmas4) None = Ok out
       /\ out !! 1%nat = Some 0%float
       /\ forall p, (p < 1)%nat ->
            out !! p = Some 0%float
            /\ exists x, Sample.alternate true Sample.fares4 !! p = Some x
                         /\ is_nan x = true.
Proof.
  apply (EMSRb_MR_first_efficient Sample.ppf Sample.keep_odd Sample.fares4
           Sample.demands4 (Some Sample.sigmas4) None
           (Sample.alternate true Sample.fares4) Sample.demands4 1 [3%nat]).
  - repeat split; simpl; lia.
  - repeat split.
  - reflexivity.
Defined.


(** * Further properties of the code *)

(** ** [EMSRb]: lengths, exceptions, what the result depends on *)

Section EMSRbFacts.

Variable ppf : float -> float.

Implicit Types (fares demands sigmas y : list float).

Lemma EMSRb_body_length fares demands sigmas (j : nat) y y' :
  EMSRb_body ppf fares demands sigmas j y = Ok y' -> length y' = length y.
Proof.
  unfold EMSRb_body.
  destruct (Np.mul _ _) as [w|e]; py_step; [|done].
  destruct (Np.getitem fares j) as [p|e]; py_step; [|done].
  unfold Np.setitem. destruct (decide _); [|done].
  intros [= <-]. by rewrite length_insert.
Qed.

Lemma for_each_length fares demands sigmas (js : list nat) y y' :
  Py.for_each js (EMSRb_body ppf fares demands sigmas) y = Ok y' ->
  length y' = length y.
Proof.
  revert y. induction js as [|j js IH]; intros y; simpl; [by intros [= <-]|].
  destruct (EMSRb_body ppf fares demands sigmas j y) as [y1|e] eqn:E;
    cbn [Py.bind]; [|done].
  intros H. rewrite (IH _ H). by eapply EMSRb_body_length.
Qed.

(** What [EMSRb] returns in Gaussian mode, whatever the lengths. *)
Lemma EMSRb_gaussian_result fares demands sigmas out :
  Np.all_eq_zero sigmas = false ->
  EMSRb ppf fares demands (Some sigmas) = Ok out ->
  exists y, length y = (length fares - 1)%nat
            /\ out = 0%float :: Np.round (EMSRb_clamp y).
Proof.
  intros Hs. unfold EMSRb, Np.zeros.
  destruct (Z.ltb_spec (Z.of_nat (length fares) - 1) 0); py_step; [done|].
  rewrite Hs. unfold EMSRb_loop.
  destruct (Py.for_each _ _ _) as [y|e] eqn:E; py_step; [|done].
  intros [= <-]. exists y. split; [|done].
  rewrite (for_each_length _ _ _ _ _ _ E), length_replicate. lia.
Qed.

(** The two arrays the loop writes and reads by index are long enough:
    the only exception it can raise is the one of the product. *)
Lemma for_each_raises_only fares demands sigmas (n a : nat) y e :
  (1 <= a)%nat -> (a + n <= length fares)%nat ->
  length y = (length fares - 1)%nat ->
  Py.for_each (seq a n) (EMSRb_body ppf fares demands sigmas) y = Raise e ->
  e = ValueError.
Proof.
  revert a y. induction n as [|n IH]; intros a y Ha Han Hy; simpl; [done|].
  assert (Decision (prefixes_multiply demands a)) as [Hok|Hno].
  { unfold prefixes_multiply. apply _. }
  - destruct (EMSRb_body_returns ppf fares demands sigmas a y) as (y1 & -> & Hy1);
      [lia|done|done|].
    cbn [Py.bind]. apply IH; lia.
  - rewrite EMSRb_body_raises; [|lia|done]. by intros [= <-].
Qed.

Lemma cumsum_from_app acc (a : list float) x :
  Np.cumsum_from acc (a ++ [x])
  = Np.cumsum_from acc a ++ [(foldl PrimFloat.add acc a + x)%float].
Proof.
  revert acc. induction a as [|z a IH]; intros acc; simpl; [done|].
  by rewrite IH.
Qed.

(** The cumulative sum without its last entry does not see the last
    element. *)
Lemma but_last_cumsum_app (a : list float) x :
  Np.but_last (Np.cumsum (a ++ [x])) = Np.cumsum a.
Proof.
  unfold Np.but_last. rewrite length_cumsum, length_app. simpl.
  replace (length a + 1 - 1)%nat with (length a) by lia.
  destruct a as [|z a]; simpl; [done|].
  rewrite cumsum_from_app. f_equal.
  rewrite take_app_le by (rewrite length_cumsum_from; lia).
  apply take_ge. rewrite length_cumsum_from. lia.
Qed.

Lemma for_each_ext {S : Type} (js : list nat) (f g : nat -> S -> result S) s :
  (forall j s', j ∈ js -> f j s' = g j s') ->
  Py.for_each js f s = Py.for_each js g s.
Proof.
  revert s. induction js as [|j js IH]; intros s Hfg; simpl; [done|].
  rewrite Hfg by apply list_elem_of_here.
  destruct (g j s) as [s1|e]; cbn [Py.bind]; [|done].
  apply IH. intros k s' Hk. apply Hfg. by apply list_elem_of_further.
Qed.

Lemma EMSRb_body_last_demand fares demands sigmas (x x' : float) (j : nat) y :
  (j <= length demands)%nat ->
  EMSRb_body ppf fares (demands ++ [x]) sigmas j y
  = EMSRb_body ppf fares (demands ++ [x']) sigmas j y.
Proof.
  intros Hj. unfold EMSRb_body, Np.upto. by rewrite !take_app_le.
Qed.

End EMSRbFacts.

Section NaNFacts.

Lemma add_nan_l x y : is_nan x = true -> is_nan (x + y) = true.
Proof. rewrite !is_nan_spec, FloatAxioms.add_spec. by intros ->. Qed.

Lemma rint_nan x : is_nan x = true -> is_nan (Np.rint x) = true.
Proof.
  intros H. pose proof H as Hx. rewrite is_nan_spec in Hx.
  unfold Np.rint. rewrite Hx. done.
Qed.

Lemma foldl_add_nan_acc acc (a : list float) :
  is_nan acc = true -> is_nan (foldl PrimFloat.add acc a) = true.
Proof.
  revert acc. induction a as [|x a IH]; intros acc H; simpl; [done|].
  by apply IH, add_nan_l.
Qed.

Lemma foldl_add_nan_elem acc (a : list float) (k : nat) d :
  a !! k = Some d -> is_nan d = true ->
  is_nan (foldl PrimFloat.add acc a) = true.
Proof.
  revert acc k. induction a as [|x a IH]; intros acc k Hk Hd; [done|].
  destruct k as [|k]; simpl in *.
  - injection Hk as ->. by apply foldl_add_nan_acc, add_nan_r.
  - by eapply IH.
Qed.

(** A running total that has taken in a NaN is NaN. *)
Lemma cumulative_demand_nan (demands : list float) (i j : nat) d :
  demands !! i = Some d -> is_nan d = true -> (i < j)%nat ->
  is_nan (cumulative_demand demands j) = true.
Proof.
  intros Hi Hd Hij. unfold cumulative_demand.
  assert (take j demands !! i = Some d) as Ht by (by rewrite lookup_take_lt).
  destruct (take j demands) as [|d0 ds]; [done|].
  destruct i as [|i]; simpl in Ht.
  - injection Ht as ->. by apply foldl_add_nan_acc.
  - by eapply foldl_add_nan_elem.
Qed.

End NaNFacts.

(** X1.  The length of what [EMSRb] returns: in Gaussian mode the length of
    [fares]; in deterministic mode one more than the length of
    [demands.cumsum()[:-1]], that is the length of [demands], or 1 when
    there are no demands. *)
Theorem EMSRb_length (ppf : float -> float)
    (fares demands : list float) (sigmas : option (list float))
    (out : list float) :
  EMSRb ppf fares demands sigmas = Ok out ->
  length out
  = if deterministic sigmas then (length demands `max` 1)%nat
    else length fares.
Proof.
  intros Hout.
  assert (fares <> []) as Hne by (by intros ->).
  assert (1 <= length fares)%nat by (destruct fares; simpl; [done|lia]).
  destruct (deterministic sigmas) eqn:Hdet.
  - rewrite EMSRb_deterministic in Hout by done. injection Hout as <-.
    simpl. rewrite length_map, length_but_last, length_cumsum. lia.
  - destruct sigmas as [s|]; [|done]. simpl in Hdet.
    destruct (EMSRb_gaussian_result ppf fares demands s out Hdet Hout)
      as (y & Hy & ->).
    simpl. unfold Np.round. rewrite length_map, length_clamp. lia.
Qed.

Lemma EMSRb_length_witness :
  EMSRb Sample.ppf [100; 75; 50]%float [10; 20]%float None = Ok [0; 10]%float
  /\ length [0; 10]%float
     = if deterministic None then (length [10; 20]%float `max` 1)%nat
       else length [100; 75; 50]%float.
Proof.
  split; [reflexivity|].
  apply (EMSRb_length Sample.ppf [100; 75; 50]%float [10; 20]%float None).
  reflexivity.
Defined.

(** X2.  The only exception [EMSRb] raises is a [ValueError] (an empty
    [fares], or a product of prefixes numpy refuses): [fares[j]] and
    [y[j-1]] are always within bounds. *)
Theorem EMSRb_raises_ValueError (ppf : float -> float)
    (fares demands : list float) (sigmas : option (list float))
    (e : Py.exn) :
  EMSRb ppf fares demands sigmas = Raise e -> e = ValueError.
Proof.
  destruct fares as [|f fares'] eqn:Hf; [by intros [= <-]|]. rewrite <- Hf.
  assert (fares <> []) as Hne by (by rewrite Hf).
  assert (1 <= length fares)%nat as HN by (rewrite Hf; simpl; lia).
  clear Hf f fares'.
  destruct (deterministic sigmas) eqn:Hdet.
  { by rewrite EMSRb_deterministic. }
  destruct sigmas as [s|]; [|done]. simpl in Hdet.
  unfold EMSRb. rewrite zeros_pred by done. py_step. rewrite Hdet.
  unfold EMSRb_loop, Py.range.
  destruct (Py.for_each _ _ _) as [y|e'] eqn:E; py_step; [done|].
  intros [= <-].
  eapply (for_each_raises_only ppf fares demands s (length fares - 1) 1);
    [lia|lia| |exact E].
  by rewrite length_replicate.
Qed.

Lemma EMSRb_raises_ValueError_witness :
  EMSRb Sample.ppf [100; 90; 80; 70; 60]%float [10; 20]%float
    (Some Sample.sigmas) = Raise ValueError
  /\ ValueError = ValueError.
Proof.
  split; [reflexivity|].
  apply (EMSRb_raises_ValueError Sample.ppf [100; 90; 80; 70; 60]%float
           [10; 20]%float (Some Sample.sigmas)).
  reflexivity.
Defined.

(** X3.  With a single fare class [EMSRb] returns [[0]], in Gaussian mode
    whatever the demands, in deterministic mode when there is at most one
    demand. *)
Theorem EMSRb_single_class (ppf : float -> float)
    (fares demands : list float) (sigmas : option (list float)) :
  length fares = 1%nat ->
  deterministic sigmas = false \/ (length demands <= 1)%nat ->
  EMSRb ppf fares demands sigmas = Ok [0%float].
Proof.
  intros HN Hcase.
  destruct fares as [|f [|f' fares]]; simpl in HN; try lia. clear HN.
  destruct (deterministic sigmas) eqn:Hdet.
  - destruct Hcase as [|Hd]; [done|].
    rewrite EMSRb_deterministic by done.
    by destruct demands as [|d [|d' demands]]; simpl in Hd; try lia.
  - destruct sigmas as [s|]; [|done]. simpl in Hdet.
    unfold EMSRb. cbn. by rewrite Hdet.
Qed.

Lemma EMSRb_single_class_witness :
  EMSRb Sample.ppf [100]%float [10]%float (Some [3]%float) = Ok [0%float].
Proof.
  apply EMSRb_single_class; [reflexivity|left; reflexivity].
Defined.

(** X4.  The demand of the lowest class has no influence: on vectors of
    one length, changing the last entry of [demands] changes nothing in
    what [EMSRb] returns or raises, in either mode. *)
Theorem EMSRb_last_demand_unused (ppf : float -> float)
    (fares demands : list float) (sigmas : option (list float))
    (x x' : float) :
  (length fares <= length demands + 1)%nat ->
  EMSRb ppf fares (demands ++ [x]) sigmas
  = EMSRb ppf fares (demands ++ [x']) sigmas.
Proof.
  intros HN. unfold EMSRb.
  destruct (Np.zeros _) as [y|e]; py_step; [|done].
  rewrite !but_last_cumsum_app.
  destruct sigmas as [s|]; [|done].
  destruct (Np.all_eq_zero s); [done|].
  unfold EMSRb_loop.
  rewrite (for_each_ext _ (EMSRb_body ppf fares (demands ++ [x]) s)
             (EMSRb_body ppf fares (demands ++ [x']) s)); [done|].
  intros j y' Hj. apply EMSRb_body_last_demand.
  unfold Py.range in Hj. apply elem_of_seq in Hj. lia.
Qed.

Lemma EMSRb_last_demand_unused_witness :
  EMSRb Sample.ppf Sample.fares ([10; 20] ++ [30])%float (Some Sample.sigmas)
  = EMSRb Sample.ppf Sample.fares ([10; 20] ++ [7000])%float (Some Sample.sigmas).
Proof.
  apply EMSRb_last_demand_unused. simpl. lia.
Defined.

(** X5.  In deterministic mode nothing is clamped (lines 50 and 51 belong
    to the other branch): a NaN demand for class [i] makes every returned
    level at an index above [i] NaN. *)
Theorem EMSRb_deterministic_nan (ppf : float -> float)
    (fares demands : list float) (sigmas : option (list float))
    (i : nat) (d : float) :
  fares <> [] ->
  deterministic sigmas = true ->
  demands !! i = Some d ->
  is_nan d = true ->
  exists out,
    EMSRb ppf fares demands sigmas = Ok out
    /\ forall j, (i < j < length demands)%nat ->
         exists v, out !! j = Some v /\ is_nan v = true.
Proof.
  intros Hne Hdet Hi Hd. rewrite EMSRb_deterministic by done.
  eexists. split; [done|]. intros j Hj.
  destruct j as [|j]; [lia|].
  change ((?x :: ?l) !! S j) with (l !! j).
  unfold Np.but_last. change (map Np.rint ?l) with (Np.rint <$> l).
  rewrite list_lookup_fmap, lookup_take_lt by (rewrite length_cumsum; lia).
  pose proof (lookup_cumsum demands (S j) ltac:(lia)) as Hc.
  simpl in Hc. rewrite Nat.sub_0_r in Hc. rewrite Hc.
  simpl. eexists. split; [done|].
  apply rint_nan. eapply cumulative_demand_nan; [exact Hi|exact Hd|lia].
Qed.

Lemma EMSRb_deterministic_nan_witness :
  exists out,
    EMSRb Sample.ppf Sample.fares4 [10; nan; 30; 40]%float None = Ok out
    /\ forall j, (1 < j < length [10; nan; 30; 40]%float)%nat ->
         exists v, out !! j = Some v /\ is_nan v = true.
Proof.
  apply (EMSRb_deterministic_nan Sample.ppf Sample.fares4
           [10; nan; 30; 40]%float None 1 nan); done.
Defined.

(** X6.  In Gaussian mode the clamping is unconditional: whatever the
    vectors hold (negative or NaN demands, infinite fares) and whatever
    their lengths, a vector [EMSRb] returns has no NaN and no negative
    entry. *)
Theorem EMSRb_gaussian_never_nan (ppf : float -> float)
    (fares demands sigmas out : list float) :
  Np.all_eq_zero sigmas = false ->
  EMSRb ppf fares demands (Some sigmas) = Ok out ->
  Forall (fun v => is_nan v = false /\ (0 <=? v)%float = true) out.
Proof.
  intros Hs Hout.
  destruct (EMSRb_gaussian_result ppf fares demands sigmas out Hs Hout)
    as (y & _ & ->).
  constructor; [done|]. unfold Np.round. rewrite EMSRb_clamp_map.
  apply Forall_fmap, Forall_fmap, Forall_forall. intros v _. simpl.
  pose proof (rint_nonneg _ (clamp1_nonneg v)) as H.
  split; [by apply nonneg_not_nan|done].
Qed.

Lemma EMSRb_gaussian_never_nan_witness :
  EMSRb Sample.ppf Sample.fares [nan; -5; 30]%float (Some Sample.sigmas)
  = Ok [0; 0; 0]%float
  /\ Forall (fun v => is_nan v = false /\ (0 <=? v)%float = true)
       [0; 0; 0]%float.
Proof.
  split; [reflexivity|].
  apply (EMSRb_gaussian_never_nan Sample.ppf Sample.fares
           [nan; -5; 30]%float Sample.sigmas); reflexivity.
Defined.

(** ** [EMSRb_MR]: the sigmas it is given *)

Section GatherFacts.

Implicit Types (a b : list float) (idx : list nat).

Lemma gather_raises a idx (i : nat) :
  i ∈ idx -> (length a <= i)%nat -> Np.gather a idx = Raise IndexError.
Proof.
  intros Hin Hi. induction idx as [|i0 idx IH]; [by apply elem_of_nil in Hin|].
  simpl. unfold Np.getitem.
  destruct (a !! i0) as [x|] eqn:Hx; py_step; [|done].
  apply elem_of_cons in Hin as [->|Hin].
  - apply lookup_lt_Some in Hx. lia.
  - by rewrite IH.
Qed.

(** Indexing by an index array returns one element for each index, or
    raises [IndexError]. *)
Lemma gather_cases a idx :
  (Forall (fun i => i < length a)%nat idx
   /\ exists xs, Np.gather a idx = Ok xs /\ length xs = length idx
                 /\ forall k i, idx !! k = Some i -> xs !! k = a !! i)
  \/ (exists i, i ∈ idx /\ (length a <= i)%nat
                /\ Np.gather a idx = Raise IndexError).
Proof.
  destruct (decide (Forall (fun i => i < length a)%nat idx)) as [Hall|Hnot].
  - left. split; [done|]. by apply gather_ok.
  - right. apply not_Forall_Exists in Hnot; [|apply _].
    apply Exists_exists in Hnot as (i & Hin & Hi). simpl in Hi.
    exists i. split; [done|]. split; [lia|]. apply (gather_raises a idx i); [done|lia].
Qed.

Lemma gather_app a (t : list float) idx :
  Forall (fun i => i < length a)%nat idx ->
  Np.gather (a ++ t) idx = Np.gather a idx.
Proof.
  induction 1 as [|i idx Hi _ IH]; simpl; [done|].
  unfold Np.getitem. rewrite lookup_app_l by done. by rewrite IH.
Qed.

Lemma all_eq_zero_lookup a :
  Np.all_eq_zero a = true <-> forall k x, a !! k = Some x -> (x =? 0)%float = true.
Proof.
  unfold Np.all_eq_zero. rewrite forallb_forall. split.
  - intros H k x Hk. apply H. apply list_elem_of_In. by eapply list_elem_of_lookup_2.
  - intros H x Hx. apply list_elem_of_In, list_elem_of_lookup_1 in Hx as [k Hk].
    by eapply H.
Qed.

Lemma gather_all_eq_zero a idx xs :
  Np.all_eq_zero a = true -> Np.gather a idx = Ok xs ->
  Np.all_eq_zero xs = true.
Proof.
  intros Ha Hg. destruct (gather_cases a idx) as [(_ & ys & Hys & Hlen & Hlook)|(i & _ & _ & Hr)].
  2:{ by rewrite Hr in Hg. }
  rewrite Hys in Hg. injection Hg as ->.
  apply all_eq_zero_lookup. intros k x Hk.
  destruct (lookup_lt_is_Some_2 idx k) as [i Hi].
  { rewrite <- Hlen. by eapply lookup_lt_Some. }
  rewrite (Hlook k i Hi) in Hk.
  rewrite all_eq_zero_lookup in Ha. by eapply Ha.
Qed.

End GatherFacts.

Section SigmaFacts.

Variable ppf : float -> float.
Variable fare_transformation :
  list float -> list float -> option float -> result (list float * list float).

(** In deterministic mode the sigmas play no part. *)
Lemma EMSRb_deterministic_same (fares demands : list float)
    (s1 s2 : option (list float)) :
  deterministic s1 = true -> deterministic s2 = true ->
  EMSRb ppf fares demands s1 = EMSRb ppf fares demands s2.
Proof.
  intros H1 H2. destruct fares as [|f fares]; [done|].
  by rewrite !EMSRb_deterministic.
Qed.

End SigmaFacts.

(** X7.  [EMSRb_MR] treats all-zero sigmas as absent sigmas: with one
    entry for each class, all of them zero, it returns or raises exactly
    what it does with [sigmas=None], whatever the fare transformation
    returns. *)
Theorem EMSRb_MR_zero_sigmas (ppf : float -> float)
    (fare_transformation :
       list float -> list float -> option float -> result (list float * list float))
    (fares demands sigmas : list float) (cap : option float) :
  Np.all_eq_zero sigmas = true ->
  length sigmas = length fares ->
  EMSRb_MR ppf fare_transformation fares demands (Some sigmas) cap
  = EMSRb_MR ppf fare_transformation fares demands None cap.
Proof.
  intros Hz Hlen. unfold EMSRb_MR.
  destruct (fare_transformation fares demands cap) as [[af ad]|e]; py_step; [|done].
  destruct (Np.gather af _) as [sel|e]; py_step; [|done].
  destruct (negb _); [|done].
  destruct (Np.gather ad _) as [dsel|e]; py_step; [|done].
  set (idx := Np.where_ (Np.not_nan af)).
  assert (length (Np.zeros_like fares) = length sigmas) as Hzl.
  { unfold Np.zeros_like. by rewrite length_replicate. }
  destruct (gather_cases sigmas idx) as [(Hall & xs & Hxs & _)|(i & Hin & Hi & ->)].
  - destruct (gather_ok (Np.zeros_like fares) idx) as (zs & Hzs & _).
    { by rewrite Hzl. }
    rewrite Hxs, Hzs. py_step.
    rewrite (EMSRb_deterministic_same ppf sel dsel (Some xs) (Some zs)); [done| |].
    + simpl. by eapply gather_all_eq_zero.
    + simpl. eapply gather_all_eq_zero; [|exact Hzs]. apply all_eq_zero_zeros.
  - rewrite (gather_raises (Np.zeros_like fares) idx i); [done|done|lia].
Qed.

Lemma EMSRb_MR_zero_sigmas_witness :
  EMSRb_MR Sample.ppf Sample.keep_odd Sample.fares4 Sample.demands4
    (Some [0; -0; 0; 0]%float) None
  = EMSRb_MR Sample.ppf Sample.keep_odd Sample.fares4 Sample.demands4 None None.
Proof.
  apply EMSRb_MR_zero_sigmas; reflexivity.
Defined.

(** X8.  [EMSRb_MR] reads [sigmas] at the efficient indices only: entries
    of [sigmas] past the length of the adjusted fares are never looked at,
    so a longer vector goes unnoticed. *)
Theorem EMSRb_MR_long_sigmas (ppf : float -> float)
    (fare_transformation :
       list float -> list float -> option float -> result (list float * list float))
    (fares demands sigmas more : list float) (cap : option float) :
  (forall af ad, fare_transformation fares demands cap = Ok (af, ad) ->
                 (length af <= length sigmas)%nat) ->
  EMSRb_MR ppf fare_transformation fares demands (Some (sigmas ++ more)) cap
  = EMSRb_MR ppf fare_transformation fares demands (Some sigmas) cap.
Proof.
  intros Hlen. unfold EMSRb_MR.
  destruct (fare_transformation fares demands cap) as [[af ad]|e]; py_step; [|done].
  specialize (Hlen af ad eq_refl).
  rewrite (gather_app sigmas more); [done|].
  eapply Forall_impl; [apply (efficient_bounds af)|]. simpl. lia.
Qed.

Lemma EMSRb_MR_long_sigmas_witness :
  EMSRb_MR Sample.ppf Sample.keep_all Sample.fares Sample.demands
    (Some (Sample.sigmas ++ [50; 60]%float)) None
  = EMSRb_MR Sample.ppf Sample.keep_all Sample.fares Sample.demands
      (Some Sample.sigmas) None.
Proof.
  apply EMSRb_MR_long_sigmas. intros af ad [= <- _]. simpl. lia.
Defined.

(** X9.  [EMSRb_MR] raises [IndexError] when the adjusted demands or the
    sigmas are too short to be read at an efficient index (lines 75 and
    76). *)
Theorem EMSRb_MR_short_sigmas (ppf : float -> float)
    (fare_transformation :
       list float -> list float -> option float -> result (list float * list float))
    (fares demands : list float) (sigmas : option (list float))
    (cap : option float) (af ad : list float) (i : nat) :
  fare_transformation fares demands cap = Ok (af, ad) ->
  i ∈ efficient af ->
  (length ad <= i)%nat
  \/ (length (default (Np.zeros_like fares) sigmas) <= i)%nat ->
  EMSRb_MR ppf fare_transformation fares demands sigmas cap = Raise IndexError.
Proof.
  intros Hft Hin Hshort. unfold EMSRb_MR. rewrite Hft. py_step.
  fold (efficient af).
  destruct (gather_ok af (efficient af) (efficient_bounds af))
    as (sel & -> & Hsel & _). py_step.
  assert (negb (length sel =? 0)%nat = true) as ->.
  { rewrite Hsel. destruct (efficient af); [by apply elem_of_nil in Hin|done]. }
  replace (match sigmas with Some s => s | None => Np.zeros_like fares end)
    with (default (Np.zeros_like fares) sigmas) by (by destruct sigmas).
  destruct (gather_cases ad (efficient af)) as [(Hall & dsel & -> & _)|(k & _ & _ & ->)];
    [|done].
  py_step. destruct Hshort as [Hd|Hs].
  - rewrite Forall_forall in Hall. specialize (Hall i Hin). lia.
  - by rewrite (gather_raises _ _ i Hin Hs).
Qed.

Lemma EMSRb_MR_short_sigmas_witness :
  EMSRb_MR Sample.ppf Sample.keep_all Sample.fares4 Sample.demands4
    (Some [3; 4]%float) None = Raise IndexError.
Proof.
  apply (EMSRb_MR_short_sigmas Sample.ppf Sample.keep_all Sample.fares4
           Sample.demands4 (Some [3; 4]%float) None
           Sample.fares4 Sample.demands4 2).
  - reflexivity.
  - vm_compute. apply list_elem_of_further, list_elem_of_further, list_elem_of_here.
  - right. simpl. lia.
Defined.

(** ** [EMSRb_MR]: where the levels end up *)

Section EfficientFacts.

Lemma elem_of_where_from (i k : nat) (mask : list bool) :
  k ∈ Np.where_from i mask <->
  (i <= k)%nat /\ mask !! (k - i)%nat = Some true.
Proof.
  revert i. induction mask as [|b mask IH]; intros i; simpl.
  - split; [by intros ?%elem_of_nil|by intros [_ ?]].
  - assert (k ∈ Np.where_from (S i) mask <->
            (i < k)%nat /\ mask !! (k - S i)%nat = Some true) as Hrest.
    { rewrite IH. split; intros [? ?]; split; done || lia. }
    destruct b.
    + rewrite elem_of_cons, Hrest. split.
      * intros [->|[Hlt Hk]]; [by rewrite Nat.sub_diag|].
        split; [lia|]. by replace (k - i)%nat with (S (k - S i)) by lia.
      * intros [Hle Hk]. destruct (decide (k = i)) as [->|Hne]; [by left|].
        right. split; [lia|].
        by replace (k - i)%nat with (S (k - S i)) in Hk by lia.
    + rewrite Hrest. split.
      * intros [Hlt Hk]. split; [lia|].
        by replace (k - i)%nat with (S (k - S i)) by lia.
      * intros [Hle Hk]. destruct (decide (k = i)) as [->|Hne].
        { by rewrite Nat.sub_diag in Hk. }
        split; [lia|]. by replace (k - i)%nat with (S (k - S i)) in Hk by lia.
Qed.

(** The efficient indices are the indices of the adjusted fares that are
    not NaN. *)
Lemma elem_of_efficient (af : list float) (i : nat) :
  i ∈ efficient af <-> exists x, af !! i = Some x /\ is_nan x = false.
Proof.
  unfold efficient, Np.where_, Np.not_nan.
  rewrite elem_of_where_from, Nat.sub_0_r.
  change (map ?f af) with (f <$> af). rewrite list_lookup_fmap.
  destruct (af !! i) as [x|]; simpl.
  - split.
    + intros [_ [= H]]. exists x. split; [done|]. by apply negb_true_iff.
    + intros (y & [= <-] & Hy). split; [lia|]. by rewrite Hy.
  - split; [by intros [_ ?]|by intros (y & ? & _)].
Qed.

End EfficientFacts.

(** X10.  Filter, compute, re-expand: on a valid input with some efficient
    class, [EMSRb_MR] calls [EMSRb] on the adjusted fares, adjusted demands
    and sigmas at the efficient indices, which gives one level for each
    efficient class; with [fill_nan] as the specification describes it,
    the [k]-th level is at the [k]-th efficient index of the result, every
    index whose adjusted fare is NaN holds 0, and the result has the length
    of [fares]. *)
Theorem EMSRb_MR_reexpands (ppf : float -> float)
    (fare_transformation :
       list float -> list float -> option float -> result (list float * list float))
    (fares demands : list float) (sigmas : option (list float))
    (cap : option float) (af ad : list float) :
  valid_shape fares demands sigmas ->
  transforms fare_transformation fares demands cap af ad ->
  efficient af <> [] ->
  exists fares_ demands_ sigmas_ levels out,
    Np.gather af (efficient af) = Ok fares_
    /\ Np.gather ad (efficient af) = Ok demands_
    /\ Np.gather (default (Np.zeros_like fares) sigmas) (efficient af)
       = Ok sigmas_
    /\ EMSRb ppf fares_ demands_ (Some sigmas_) = Ok levels
    /\ length levels = length (efficient af)
    /\ EMSRb_MR ppf fare_transformation fares demands sigmas cap = Ok out
    /\ length out = length fares
    /\ (forall k i, efficient af !! k = Some i -> out !! i = levels !! k)
    /\ (forall i x, af !! i = Some x -> is_nan x = true ->
          out !! i = Some 0%float).
Proof.
  intros Hv Ht Hne.
  destruct (EMSRb_MR_some ppf fare_transformation fares demands sigmas cap af ad
              Hv Ht Hne)
    as (fares_ & demands_ & sigmas_ & y & Hg1 & Hg2 & Hg3 & Hy & Hly & Hout).
  exists fares_, demands_, sigmas_, (0%float :: y),
    (fill_nan (length fares) (efficient af) (0%float :: y)).
  split_and!; try done.
  - by rewrite length_fill_nan.
  - intros k i Hk.
    destruct (lookup_lt_is_Some_2 (0%float :: y) k) as [v Hv'].
    { simpl. rewrite Hly. by eapply lookup_lt_Some. }
    rewrite Hv'. eapply fill_nan_at; [apply efficient_NoDup|done|done|].
    destruct Ht as (_ & Haf & _). rewrite <- Haf.
    pose proof (efficient_bounds af) as Hb. rewrite Forall_forall in Hb.
    apply Hb. by eapply list_elem_of_lookup_2.
  - intros i x Hi Hx. apply fill_nan_outside.
    + destruct Ht as (_ & Haf & _). rewrite <- Haf. by eapply lookup_lt_Some.
    + rewrite elem_of_efficient. intros (x' & Hx' & Hnan).
      rewrite Hi in Hx'. injection Hx' as <-. by rewrite Hx in Hnan.
Qed.

Lemma EMSRb_MR_reexpands_witness :
  exists fares_ demands_ sigmas_ levels out,
    Np.gather (Sample.alternate true Sample.fares4)
      (efficient (Sample.alternate true Sample.fares4)) = Ok fares_
    /\ Np.gather Sample.demands4
         (efficient (Sample.alternate true Sample.fares4)) = Ok demands_
    /\ Np.gather (default (Np.zeros_like Sample.fares4) (Some Sample.sigmas4))
         (efficient (Sample.alternate true Sample.fares4)) = Ok sigmas_
    /\ EMSRb Sample.ppf fares_ demands_ (Some sigmas_) = Ok levels
    /\ length levels = length (efficient (Sample.alternate true Sample.fares4))
    /\ EMSRb_MR Sample.ppf Sample.keep_odd Sample.fares4 Sample.demands4
         (Some Sample.sigmas4) None = Ok out
    /\ length out = length Sample.fares4
    /\ (forall k i,
          efficient (Sample.alternate true Sample.fares4) !! k = Some i ->
          out !! i = levels !! k)
    /\ (forall i x,
          Sample.alternate true Sample.fares4 !! i = Some x ->
          is_nan x = true -> out !! i = Some 0%float).
Proof.
  apply (EMSRb_MR_reexpands Sample.ppf Sample.keep_odd Sample.fares4
           Sample.demands4 (Some Sample.sigmas4) None
           (Sample.alternate true Sample.fares4) Sample.demands4).
  - repeat split; simpl; lia.
  - repeat split.
  - discriminate.
Defined.

(** ** The array [EMSRb] returns *)

Section ResultFacts.

Import Mem.

Lemma bind_Ok_inv {A B : Type} (m : M A) (k : A -> M B)
    (h : gmap nat (list float)) r h' :
  (m ≫= k) h = (Ok r, h') ->
  exists a h1, m h = (Ok a, h1) /\ k a h1 = (Ok r, h').
Proof.
  unfold mbind, mem_bind, bind.
  destruct (m h) as [[a|e] h1]; [|done]. intros H. by exists a, h1.
Qed.

End ResultFacts.

(** X11.  The array [EMSRb] returns is new ([np.hstack] builds it): its
    buffer is in the store after the call and was not there before, so it
    shares no element with any array of the caller. *)
Theorem EMSRb_result_is_new (ppf : float -> float)
    (fares demands : Mem.array) (sigmas : option Mem.array)
    (h h' : gmap nat (list float)) (r : Mem.array) :
  EMSRb_mem ppf fares demands sigmas h = (Ok r, h') ->
  (Mem.buf r ∉ dom h) /\ (Mem.buf r ∈ dom h').
Proof.
  intros Hrun. split.
  - pose proof (keeps_EMSRb ppf h fares demands sigmas h) as [_ Hown]; [done|].
    apply Hown. by rewrite Hrun.
  - unfold EMSRb_mem in Hrun.
    apply bind_Ok_inv in Hrun as (y & h1 & _ & Hrun).
    apply bind_Ok_inv in Hrun as (y' & h2 & _ & Hrun).
    apply bind_Ok_inv in Hrun as (r0 & h3 & _ & Hrun).
    unfold NpMem.hstack0 in Hrun.
    apply bind_Ok_inv in Hrun as (xs & h4 & _ & Hrun).
    unfold Mem.alloc in Hrun. injection Hrun as <- <-. simpl.
    rewrite dom_insert. set_solver.
Qed.

Lemma EMSRb_result_is_new_witness :
  (Mem.buf (Mem.Array 11 0 4) ∉ dom Sample.store4)
  /\ (Mem.buf (Mem.Array 11 0 4)
      ∈ dom (EMSRb_mem Sample.ppf Sample.fares4_ref Sample.demands4_ref
               (Some Sample.sigmas4_ref) Sample.store4).2).
Proof.
  apply (EMSRb_result_is_new Sample.ppf Sample.fares4_ref Sample.demands4_ref
           (Some Sample.sigmas4_ref) Sample.store4).
  vm_compute. reflexivity.
Defined.

(** X12.  Every level [EMSRb] returns went through [np.round] (line 54),
    in either mode: it has no fractional part, that is, it is an integer
    unless it is NaN or infinite. *)
Theorem EMSRb_whole (ppf : float -> float) (fares demands : list float)
    (sigmas : option (list float)) (out : list float) :
  EMSRb ppf fares demands sigmas = Ok out ->
  Forall (fun v => F64.whole v = true) out.
Proof.
  intros Hout.
  assert (exists y', out = Np.hstack0 (Np.round y')) as [y' ->].
  { revert Hout. unfold EMSRb.
    destruct (Np.zeros _) as [y|]; py_step; [|done].
    destruct sigmas as [s|]; [destruct (Np.all_eq_zero s)|].
    - py_step. intros [= <-]. by eexists.
    - destruct (EMSRb_loop ppf fares demands s y) as [y1|]; py_step; [|done].
      intros [= <-]. by eexists.
    - py_step. intros [= <-]. by eexists. }
  constructor; [done|]. unfold Np.round.
  change (map ?f ?l) with (f <$> l). apply Forall_fmap, Forall_forall.
  intros v _. apply rint_whole.
Qed.

Lemma EMSRb_whole_witness :
  EMSRb Sample.ppf Sample.fares [10.5; 20.25; 30]%float None
  = Ok [0; 10; 31]%float
  /\ Forall (fun v => F64.whole v = true) [0; 10; 31]%float.
Proof.
  split; [reflexivity|].
  apply (EMSRb_whole Sample.ppf Sample.fares [10.5; 20.25; 30]%float None);
    reflexivity.
Defined.
